(** * testid-manager: identifiers in test titles (add / clean / compare)

    A shallow embedding of the identifier lifecycle engine of the
    repository: seed parsing, the anchored title matchers, the scan and
    rewrite visitors over a parsed syntax tree, allocation of fresh
    identifiers and the three command drivers.

    Modelling premises, fixed once for the whole development:
    - a JavaScript string is a [string] of 8-bit code units (Latin-1);
    - a JavaScript number holding an identifier's numeric part is an [N]
      (the sources only add small integers to it; values stay far below
      2^53 in any realistic run);
    - the parser and the printer are external: a file is its parsed tree,
      and writing a file stores the mutated tree. *)

From Stdlib Require Import String Ascii NArith ZArith DecimalString DecimalN.
From stdpp Require Import gmap strings list sorting.

#[local] Arguments String.append !_ _ / : simpl nomatch.

(** ** JavaScript string primitives *)

Module Js.

(** [\d] *)
Definition is_digit (c : ascii) : bool :=
  let n := N_of_ascii c in ((48 <=? n) && (n <=? 57))%N.

(** [[A-Za-z]] *)
Definition is_alpha (c : ascii) : bool :=
  let n := N_of_ascii c in
  (((65 <=? n) && (n <=? 90)) || ((97 <=? n) && (n <=? 122)))%N.

(** Line terminators: the characters [.] does not match. *)
Definition is_line_terminator (c : ascii) : bool :=
  let n := N_of_ascii c in ((n =? 10) || (n =? 13))%N.

(** [.] *)
Definition is_dot (c : ascii) : bool := negb (is_line_terminator c).

(** [\s], which is also the set of characters [trim] removes:
    TAB, LF, VT, FF, CR, space and the no-break space. *)
Definition is_space (c : ascii) : bool :=
  let n := N_of_ascii c in
  (((9 <=? n) && (n <=? 13)) || (n =? 32) || (n =? 160))%N.

Fixpoint all_chars (p : ascii -> bool) (s : string) : bool :=
  match s with
  | "" => true
  | String c s' => p c && all_chars p s'
  end.

Fixpoint drop_while (p : ascii -> bool) (s : string) : string :=
  match s with
  | "" => ""
  | String c s' => if p c then drop_while p s' else s
  end.

Fixpoint rev_string (s : string) : string :=
  match s with
  | "" => ""
  | String c s' => rev_string s' +:+ String c ""
  end.

Definition trimStart (s : string) : string := drop_while is_space s.
Definition trimEnd (s : string) : string :=
  rev_string (drop_while is_space (rev_string s)).

(** [String.prototype.trim] *)
Definition trim (s : string) : string := trimEnd (trimStart s).

Fixpoint repeat_char (c : ascii) (n : nat) : string :=
  match n with
  | O => ""
  | S n' => String c (repeat_char c n')
  end.

(** [s.padStart(w, '0')] *)
Definition padStart (s : string) (w : nat) (c : ascii) : string :=
  repeat_char c (w - String.length s) +:+ s.

(** [n.toString()] for a non-negative integer *)
Definition toString (n : N) : string :=
  NilZero.string_of_uint (N.to_uint n).

Definition digit_val (c : ascii) : N := (N_of_ascii c - 48)%N.

Fixpoint digits_value (s : string) (acc : N) : N :=
  match s with
  | "" => acc
  | String c s' => digits_value s' (acc * 10 + digit_val c)%N
  end.

Fixpoint take_while (p : ascii -> bool) (s : string) : string :=
  match s with
  | "" => ""
  | String c s' => if p c then String c (take_while p s') else ""
  end.

(** [parseInt(s, 10)] on a string that starts with its digits: the value
    of the leading digit run, [None] (NaN) when there is none. *)
Definition parseInt (s : string) : option N :=
  match take_while is_digit s with
  | "" => None
  | ds => Some (digits_value ds 0)
  end.

(** A falsy string is the empty one. *)
Definition truthy_string (s : string) : bool :=
  negb (String.eqb s "").

End Js.

(** ** Regular expressions

    The seven patterns of the sources are all anchored at the start of
    the subject and use only: literal text, one character class under a
    greedy or lazy star, a greedy plus, an exact count, capture groups,
    concatenation and the end anchor. The matcher below is the
    backtracking matcher restricted to that fragment: it lists every way
    the pattern can match a prefix of the subject, in the order in which
    a backtracking engine tries them, so that the engine's answer is the
    head of the list. *)

Module Regex.

Inductive regex : Type :=
| Lit (s : string)                    (* literal text *)
| Star (p : ascii -> bool)            (* [c*], greedy *)
| LazyStar (p : ascii -> bool)        (* [c*?] *)
| Plus (p : ascii -> bool)            (* [c+], greedy *)
| Count (p : ascii -> bool) (n : nat) (* [c{n}] *)
| Group (r : regex)                   (* [( r )] *)
| Cat (r1 r2 : regex)
| Eos.                                (* [$] *)

(** One way of matching: the text consumed, the text left, and the
    captures of the groups closed so far, in group order. *)
Record attempt : Type := Attempt {
  consumed : string;
  rest : string;
  captures : list string
}.

Definition cons_char (c : ascii) (a : attempt) : attempt :=
  Attempt (String c (consumed a)) (rest a) (captures a).

Fixpoint strip_literal (l s : string) : option string :=
  match l, s with
  | "", _ => Some s
  | String a l', String b s' =>
      if Ascii.eqb a b then strip_literal l' s' else None
  | String _ _, "" => None
  end.

Fixpoint star_greedy (p : ascii -> bool) (s : string) : list attempt :=
  match s with
  | String c s' =>
      if p c then (cons_char c <$> star_greedy p s') ++ [Attempt "" s []]
      else [Attempt "" s []]
  | "" => [Attempt "" "" []]
  end.

Fixpoint star_lazy (p : ascii -> bool) (s : string) : list attempt :=
  match s with
  | String c s' =>
      if p c then Attempt "" s [] :: (cons_char c <$> star_lazy p s')
      else [Attempt "" s []]
  | "" => [Attempt "" "" []]
  end.

Fixpoint count_exact (p : ascii -> bool) (n : nat) (s : string)
  : list attempt :=
  match n with
  | O => [Attempt "" s []]
  | S n' =>
      match s with
      | String c s' =>
          if p c then cons_char c <$> count_exact p n' s' else []
      | "" => []
      end
  end.

Fixpoint attempts (r : regex) (s : string) : list attempt :=
  match r with
  | Lit l =>
      match strip_literal l s with
      | Some s' => [Attempt l s' []]
      | None => []
      end
  | Star p => star_greedy p s
  | LazyStar p => star_lazy p s
  | Plus p =>
      match s with
      | String c s' =>
          if p c then cons_char c <$> star_greedy p s' else []
      | "" => []
      end
  | Count p n => count_exact p n s
  | Group r =>
      (fun a => Attempt (consumed a) (rest a) (captures a ++ [consumed a]))
        <$> attempts r s
  | Cat r1 r2 =>
      a1 ← attempts r1 s;
      (fun a2 => Attempt (consumed a1 +:+ consumed a2) (rest a2)
                         (captures a1 ++ captures a2))
        <$> attempts r2 (rest a1)
  | Eos =>
      match s with
      | "" => [Attempt "" "" []]
      | _ => []
      end
  end.

(** [subject.match(/^r/)]: the first successful attempt, if any. *)
Definition exec (r : regex) (s : string) : option attempt :=
  head (attempts r s).

(** [r.test(subject)] *)
Definition test (r : regex) (s : string) : bool :=
  match exec r s with Some _ => true | None => false end.

(** [subject.replace(/^r/, '')]: the subject without the matched prefix,
    the subject itself when the pattern does not match. *)
Definition replace_empty (r : regex) (s : string) : string :=
  match exec r s with Some a => rest a | None => s end.

(** The [i]-th capture, [match[i]] for [i >= 1]. *)
Definition capture (a : attempt) (i : nat) : string :=
  default "" (captures a !! (i - 1)).

End Regex.

(** ** Syntax trees

    The sources parse with Babel (plugins jsx and typescript), which
    yields [StringLiteral] nodes for string literals and
    [TemplateLiteral] nodes carrying [quasis] and [expressions] and no
    [value] field. Only the node kinds the visitors inspect are told
    apart; every other kind is an [OtherNode] with its children in
    traversal order. *)

#[warnings="-register-all"]
Inductive node : Type :=
| Identifier (name : string)
| MemberExpression (object property : node)
| CallExpression (callee : node) (arguments : list node)
| StringLiteral (value : string)
| TemplateLiteral (quasis : list string) (expressions : list node)
| NumericLiteral (value : N)
| OtherNode (children : list node).

(** The store of files: a path is bound to the tree its text parses to.
    A path without a binding stands for a file that cannot be read or
    parsed: reading it throws. *)
Abbreviation filesystem := (gmap string node).

Inductive result (A : Type) : Type :=
| Ok (a : A)
| Throw (msg : string).
Arguments Ok {A} a.
Arguments Throw {A} msg.

Definition readAndParse (fs : filesystem) (filePath : string) : result node :=
  match fs !! filePath with
  | Some ast => Ok ast
  | None => Throw ("cannot read or parse " +:+ filePath)
  end.

(** [this.traverse(path)] over a list of children, threading the
    visitor's state from one child to the next. *)
Definition traverse_list {S : Type} (visit : node -> S -> node * S)
  : list node -> S -> list node * S :=
  fix go (l : list node) (st : S) : list node * S :=
    match l with
    | [] => ([], st)
    | x :: l' =>
        let '(x', st1) := visit x st in
        let '(l'', st2) := go l' st1 in
        (x' :: l'', st2)
    end.

(** [firstArg.quasis[0].value.raw]; the parser yields one more quasi
    than there are expressions, so the list is never empty. *)
Definition first_quasi (quasis : list string) : string :=
  default "" (head quasis).

(** The name a call resolves to when the callee is a plain identifier or
    a member access whose property is an identifier. *)
Definition calleeName (callee : node) : option string :=
  match callee with
  | Identifier name => Some name
  | MemberExpression _ (Identifier name) => Some name
  | _ => None
  end.

Definition is_it_or_test (name : option string) : bool :=
  match name with
  | Some n => String.eqb n "it" || String.eqb n "test"
  | None => false
  end.

(** [!firstArg.value] is false exactly for a node with a truthy [value]
    field: a non-empty string literal or a non-zero numeric literal. *)
Definition value_truthy (n : node) : bool :=
  match n with
  | StringLiteral v => Js.truthy_string v
  | NumericLiteral v => negb (v =? 0)%N
  | _ => false
  end.

(** The identifier [prefix + digits] for a number: add.js:148-149. *)
Definition format_id (prefix : string) (width : nat) (n : N) : string :=
  prefix +:+ Js.padStart (Js.toString n) width "0".

(** ** The add command (src/commands/add.js) *)

Module Add.

Import Regex.

(** The resolved options of a run (the result of [resolveConfig]). *)
Record options : Type := Options {
  baseId : string;
  overwriteExistingIds : bool
}.

(** The configuration after [main] has stored the parsed seed in it. *)
Record config : Type := Config {
  overwrite : bool;
  prefix : string;
  baseNumber : N;
  numberLength : nat
}.

(** The pattern of add.js:43: start, a captured run of letters (greedy,
    possibly empty), a captured run of one or more digits, end. *)
Definition baseIdRegex : regex :=
  Cat (Group (Star Js.is_alpha)) (Cat (Group (Plus Js.is_digit)) Eos).

Definition parseBaseId (baseId : string) : result (string * N * nat) :=
  match exec baseIdRegex baseId with
  | None => Throw "baseId must be alphanumeric like C001, T1001, etc."
  | Some m =>
      Ok (capture m 1,
          default 0%N (Js.parseInt (capture m 2)),
          String.length (capture m 2))
  end.

(** The pattern of add.js:83 and add.js:138: start, the captured
    prefix, a captured run of exactly [numberLength] digits, a colon,
    any white space. The prefix is spliced into the pattern source; it comes from
    [parseBaseId], hence consists of letters, which stand for
    themselves. *)
Definition idRegex (cfg : config) : regex :=
  Cat (Group (Lit (prefix cfg)))
      (Cat (Group (Count Js.is_digit (numberLength cfg)))
           (Cat (Lit ":") (Star Js.is_space))).

(** An entry of [foundIds] (the source location, used for nothing, is
    left out). *)
Record occurrence : Type := Occurrence {
  id : string;
  title : string;
  file : string
}.

Definition isTest (callee : node) : bool :=
  match callee with
  | Identifier name => String.eqb name "it" || String.eqb name "test"
  | _ => false
  end.

(** The title the scan reads off a first argument: [''] for any shape
    other than the two literal ones. *)
Definition scan_title (firstArg : node) : string :=
  match firstArg with
  | TemplateLiteral quasis [] => first_quasi quasis
  | StringLiteral value => value
  | _ => ""
  end.

Definition found (cfg : config) (filePath title : string)
  : list occurrence :=
  match exec (idRegex cfg) title with
  | Some m => [Occurrence (capture m 1 +:+ capture m 2) title filePath]
  | None => []
  end.

(** The visitor of [parseTestIdsFromFile], add.js:66-98. *)
Fixpoint scan (cfg : config) (filePath : string) (n : node)
  : list occurrence :=
  match n with
  | CallExpression callee args =>
      if isTest callee then
        match args with
        | [] => []
        | firstArg :: _ =>
            found cfg filePath (scan_title firstArg)
              ++ scan cfg filePath callee
              ++ flat_map (scan cfg filePath) args
        end
      else scan cfg filePath callee ++ flat_map (scan cfg filePath) args
  | MemberExpression object property =>
      scan cfg filePath object ++ scan cfg filePath property
  | TemplateLiteral _ expressions => flat_map (scan cfg filePath) expressions
  | OtherNode children => flat_map (scan cfg filePath) children
  | Identifier _ | StringLiteral _ | NumericLiteral _ => []
  end.

Definition parseTestIdsFromFile (fs : filesystem) (filePath : string)
  (cfg : config) : result (list occurrence) :=
  match readAndParse fs filePath with
  | Ok ast => Ok (scan cfg filePath ast)
  | Throw msg => Throw msg
  end.

(** What the rewrite phase prints, add.js:143, 158, 178 and 180. The
    [Updating] line carries, besides the identifier and the stripped
    title it prints, the allocation cursor before and after the
    allocation and the used-id set the candidate was checked against. *)
Inductive event : Type :=
| Skipping (title : string)
| Updating (cursor : N) (usedBefore : gset string) (nextId : string)
           (newTitleRaw : string) (cursor' : N)
| UpdatedFile (filePath : string)
| NoChanges (filePath : string).

(** The variables the visitor of [transformFile] closes over. *)
Record tstate : Type := TState {
  usedIds : gset string;
  localInc : N;
  fileChanged : bool;
  log : list event
}.

(** The [do ... while (usedIds.has(nextId))] loop, add.js:147-151. The
    loop runs its body at most once more than there are used
    identifiers; [fuel] counts the iterations still allowed after the
    current one. *)
Fixpoint next_free (fuel : nat) (cfg : config) (used : gset string)
  (newBase : N) : string * N :=
  let nextId := format_id (prefix cfg) (numberLength cfg) newBase in
  let newBase' := (newBase + 1)%N in
  match fuel with
  | O => (nextId, newBase')
  | S fuel' =>
      if decide (nextId ∈ used) then next_free fuel' cfg used newBase'
      else (nextId, newBase')
  end.

(** The title the rewrite reads off a first argument; [None] is the
    [return false] of add.js:135. *)
Definition rewrite_title (firstArg : node) : option string :=
  match firstArg with
  | TemplateLiteral quasis [] => Some (first_quasi quasis)
  | StringLiteral value => Some value
  | _ => None
  end.

(** add.js:138-168 for one eligible declaration with title [title]:
    the new first argument, if the title is rewritten, and the state. *)
Definition assign (cfg : config) (baseNumber : N) (title : string)
  (st : tstate) : option node * tstate :=
  let hasId := test (idRegex cfg) title in
  if hasId && negb (overwrite cfg) then
    (None, TState (usedIds st) (localInc st) (fileChanged st)
                  (log st ++ [Skipping title]))
  else
    let cursor := (baseNumber + localInc st)%N in
    let '(nextId, newBase) :=
      next_free (size (usedIds st)) cfg (usedIds st) cursor in
    let newTitleRaw := Js.trim (replace_empty (idRegex cfg) title) in
    let finalTitle := nextId +:+ ": " +:+ newTitleRaw in
    (Some (StringLiteral finalTitle),
     TState ({[nextId]} ∪ usedIds st) (newBase - baseNumber)%N true
            (log st ++ [Updating cursor (usedIds st) nextId newTitleRaw
                                 newBase])).

(** The visitor of [transformFile], add.js:119-173. *)
Fixpoint visit (cfg : config) (baseNumber : N) (n : node) (st : tstate)
  : node * tstate :=
  match n with
  | CallExpression callee args =>
      if isTest callee then
        match args with
        | [] => (n, st)
        | firstArg :: others =>
            match rewrite_title firstArg with
            | None => (n, st)
            | Some title =>
                let '(newArg, st1) := assign cfg baseNumber title st in
                let '(callee', st2) := visit cfg baseNumber callee st1 in
                let '(others', st3) :=
                  traverse_list (visit cfg baseNumber) others st2 in
                (CallExpression callee' (default firstArg newArg :: others'),
                 st3)
            end
        end
      else
        let '(callee', st1) := visit cfg baseNumber callee st in
        let '(args', st2) := traverse_list (visit cfg baseNumber) args st1 in
        (CallExpression callee' args', st2)
  | MemberExpression object property =>
      let '(object', st1) := visit cfg baseNumber object st in
      let '(property', st2) := visit cfg baseNumber property st1 in
      (MemberExpression object' property', st2)
  | TemplateLiteral quasis expressions =>
      let '(expressions', st1) :=
        traverse_list (visit cfg baseNumber) expressions st in
      (TemplateLiteral quasis expressions', st1)
  | OtherNode children =>
      let '(children', st1) :=
        traverse_list (visit cfg baseNumber) children st in
      (OtherNode children', st1)
  | Identifier _ | StringLiteral _ | NumericLiteral _ => (n, st)
  end.

(** The state of a run: the files, the paths written so far, the console
    and the used-id set shared by all files. *)
Record world : Type := World {
  files : filesystem;
  written : list string;
  console : list event;
  used : gset string
}.

(** [transformFile(filePath, config, usedIds, baseNumber)]: the world
    after the file was processed and the returned [localInc]. *)
Definition transformFile (filePath : string) (cfg : config)
  (baseNumber : N) (w : world) : result (world * N) :=
  match readAndParse (files w) filePath with
  | Throw msg => Throw msg
  | Ok ast =>
      let '(ast', st) :=
        visit cfg baseNumber ast (TState (used w) 0 false []) in
      if fileChanged st then
        Ok (World (<[filePath := ast']> (files w))
                  (written w ++ [filePath])
                  (console w ++ log st ++ [UpdatedFile filePath])
                  (usedIds st),
            localInc st)
      else
        Ok (World (files w) (written w)
                  (console w ++ log st ++ [NoChanges filePath])
                  (usedIds st),
            localInc st)
  end.

(** The scan loop of [main], add.js:203-210: the occurrences of all
    files, in file order. *)
Fixpoint scanAll (fs : filesystem) (cfg : config) (paths : list string)
  : result (list occurrence) :=
  match paths with
  | [] => Ok []
  | p :: paths' =>
      match parseTestIdsFromFile fs p cfg with
      | Throw msg => Throw msg
      | Ok found =>
          match scanAll fs cfg paths' with
          | Throw msg => Throw msg
          | Ok more => Ok (found ++ more)
          end
      end
  end.

(** [idOccurrences]: each identifier with the (file, title) pairs that
    bear it, in the order they were pushed. *)
Definition record_occurrence (reg : gmap string (list (string * string)))
  (o : occurrence) : gmap string (list (string * string)) :=
  <[id o := default [] (reg !! id o) ++ [(file o, title o)]]> reg.

Definition idOccurrences (found : list occurrence)
  : gmap string (list (string * string)) :=
  foldl record_occurrence ∅ found.

(** [Object.entries(idOccurrences).filter(([_, list]) => list.length > 1)],
    as a map: the order in which the entries are printed is not
    modelled. *)
Definition duplicates (reg : gmap string (list (string * string)))
  : gmap string (list (string * string)) :=
  filter (fun kv => 1 < length kv.2) reg.

(** The update loop of [main], add.js:231-235. On a throw the files
    already written stay written. *)
Fixpoint updateAll (cfg : config) (paths : list string) (totalInc : N)
  (w : world) : world * option string :=
  match paths with
  | [] => (w, None)
  | p :: paths' =>
      match transformFile p cfg (baseNumber cfg + totalInc)%N w with
      | Throw msg => (w, Some msg)
      | Ok (w', inc) => updateAll cfg paths' (totalInc + inc)%N w'
      end
  end.

(** How a run of [main] ends. *)
Inductive status : Type :=
| Failed (msg : string)
| NoFilesMatched
| Blocked (dups : gmap string (list (string * string)))
| Completed.

Record outcome : Type := Outcome {
  final : world;
  ending : status
}.

(** [main], add.js:186-240, from the resolved options and the paths the
    glob returned. *)
Definition main (opts : options) (paths : list string) (fs : filesystem)
  : outcome :=
  let w0 := World fs [] [] ∅ in
  match parseBaseId (baseId opts) with
  | Throw msg => Outcome w0 (Failed msg)
  | Ok (prefix, baseNumber, numberLength) =>
      let cfg := Config (overwriteExistingIds opts) prefix baseNumber
                        numberLength in
      match paths with
      | [] => Outcome w0 NoFilesMatched
      | _ =>
          match scanAll fs cfg paths with
          | Throw msg => Outcome w0 (Failed msg)
          | Ok found =>
              let reg := idOccurrences found in
              if decide (duplicates reg = ∅) then
                let w1 := World fs [] [] (dom reg) in
                match updateAll cfg paths 0 w1 with
                | (w, Some msg) => Outcome w (Failed msg)
                | (w, None) => Outcome w Completed
                end
              else Outcome w0 (Blocked (duplicates reg))
          end
      end
  end.

End Add.

(** ** The first add script (src/index.cjs)

    Identifiers are bare numbers here: the configuration gives the first
    one as a digit string, [startIndex], whose length is the width. *)

Module IndexCjs.

Import Regex.

Record config : Type := Config {
  startIndex : string;
  overwriteExistingIds : bool
}.

(** The pattern of index.cjs:84 and index.cjs:153: start, a captured run
    of exactly [idLength] digits, a colon, any white space. *)
Definition idPrefixRegex (idLength : nat) : regex :=
  Cat (Group (Count Js.is_digit idLength)) (Cat (Lit ":") (Star Js.is_space)).

(** index.cjs:64-77: the title, when the first argument is a string
    literal or a template literal without expressions. *)
Definition testTitle (firstArg : node) : option string :=
  match firstArg with
  | TemplateLiteral quasis [] => Some (first_quasi quasis)
  | StringLiteral value => Some value
  | _ => None
  end.

Record occurrence : Type := Occurrence {
  id : string;
  title : string;
  file : string
}.

Definition found (cfg : config) (filePath : string) (args : list node)
  : list occurrence :=
  match args with
  | [] => []
  | firstArg :: _ =>
      match testTitle firstArg with
      | None => []
      | Some t =>
          match exec (idPrefixRegex (String.length (startIndex cfg))) t with
          | Some m => [Occurrence (capture m 1) t filePath]
          | None => []
          end
      end
  end.

(** The visitor of [parseTestIdsFromFile], index.cjs:50-99. *)
Fixpoint scan (cfg : config) (filePath : string) (n : node)
  : list occurrence :=
  match n with
  | CallExpression callee args =>
      (if is_it_or_test (calleeName callee) then found cfg filePath args
       else [])
        ++ scan cfg filePath callee ++ flat_map (scan cfg filePath) args
  | MemberExpression object property =>
      scan cfg filePath object ++ scan cfg filePath property
  | TemplateLiteral _ expressions => flat_map (scan cfg filePath) expressions
  | OtherNode children => flat_map (scan cfg filePath) children
  | Identifier _ | StringLiteral _ | NumericLiteral _ => []
  end.

Definition parseTestIdsFromFile (cfg : config) (fs : filesystem)
  (filePath : string) : result (list occurrence) :=
  match readAndParse fs filePath with
  | Ok ast => Ok (scan cfg filePath ast)
  | Throw msg => Throw msg
  end.

Record tstate : Type := TState {
  usedIds : gset string;
  localIncrement : N;
  fileChanged : bool
}.

(** The [while (usedIds.has(nextIdStr))] loop, index.cjs:162-165, with
    the number of iterations still allowed. *)
Fixpoint next_unused (fuel : nat) (idLength : nat) (used : gset string)
  (nextIdNum : N) : N :=
  match fuel with
  | O => nextIdNum
  | S fuel' =>
      if decide (Js.padStart (Js.toString nextIdNum) idLength "0" ∈ used)
      then next_unused fuel' idLength used (nextIdNum + 1)%N
      else nextIdNum
  end.

(** index.cjs:152-183 for one declaration with a title. *)
Definition assign (cfg : config) (globalStartIndexNum : N) (t : string)
  (st : tstate) : option node * tstate :=
  let idLength := String.length (startIndex cfg) in
  let hasIdPrefix := test (idPrefixRegex idLength) t in
  if hasIdPrefix && negb (overwriteExistingIds cfg) then (None, st)
  else
    let nextIdNum :=
      next_unused (size (usedIds st)) idLength (usedIds st)
                  (globalStartIndexNum + localIncrement st)%N in
    let nextIdStr := Js.padStart (Js.toString nextIdNum) idLength "0" in
    let newTitleRaw := Js.trim (replace_empty (idPrefixRegex idLength) t) in
    let finalTitle := nextIdStr +:+ ": " +:+ newTitleRaw in
    (Some (StringLiteral finalTitle),
     TState ({[nextIdStr]} ∪ usedIds st)
            (nextIdNum - globalStartIndexNum + 1)%N true).

(** The title of a call that declares a test, index.cjs:135-151. *)
Definition declared_title (callee : node) (args : list node)
  : option string :=
  if is_it_or_test (calleeName callee) then
    match args with
    | firstArg :: _ => testTitle firstArg
    | [] => None
    end
  else None.

(** The visitor of [transformFile], index.cjs:123-189: whatever the
    shape of the call, its children are traversed. A first argument
    that carries a title has no call among its descendants. *)
Fixpoint visit (cfg : config) (globalStartIndexNum : N) (n : node)
  (st : tstate) : node * tstate :=
  match n with
  | CallExpression callee args =>
      match declared_title callee args, args with
      | Some t, firstArg :: others =>
          let '(newArg, st1) := assign cfg globalStartIndexNum t st in
          let '(callee', st2) := visit cfg globalStartIndexNum callee st1 in
          let '(others', st3) :=
            traverse_list (visit cfg globalStartIndexNum) others st2 in
          (CallExpression callee' (default firstArg newArg :: others'), st3)
      | _, _ =>
          let '(callee', st1) := visit cfg globalStartIndexNum callee st in
          let '(args', st2) :=
            traverse_list (visit cfg globalStartIndexNum) args st1 in
          (CallExpression callee' args', st2)
      end
  | MemberExpression object property =>
      let '(object', st1) := visit cfg globalStartIndexNum object st in
      let '(property', st2) := visit cfg globalStartIndexNum property st1 in
      (MemberExpression object' property', st2)
  | TemplateLiteral quasis expressions =>
      let '(expressions', st1) :=
        traverse_list (visit cfg globalStartIndexNum) expressions st in
      (TemplateLiteral quasis expressions', st1)
  | OtherNode children =>
      let '(children', st1) :=
        traverse_list (visit cfg globalStartIndexNum) children st in
      (OtherNode children', st1)
  | Identifier _ | StringLiteral _ | NumericLiteral _ => (n, st)
  end.

Record world : Type := World {
  files : filesystem;
  written : list string;
  used : gset string
}.

(** [transformFile(filePath, config, usedIds, globalStartIndexNum)] *)
Definition transformFile (filePath : string) (cfg : config)
  (globalStartIndexNum : N) (w : world) : result (world * N) :=
  match readAndParse (files w) filePath with
  | Throw msg => Throw msg
  | Ok ast =>
      let '(ast', st) :=
        visit cfg globalStartIndexNum ast (TState (used w) 0 false) in
      if fileChanged st then
        Ok (World (<[filePath := ast']> (files w)) (written w ++ [filePath])
                  (usedIds st),
            localIncrement st)
      else Ok (World (files w) (written w) (usedIds st), localIncrement st)
  end.

Fixpoint scanAll (cfg : config) (fs : filesystem) (paths : list string)
  : result (list occurrence) :=
  match paths with
  | [] => Ok []
  | p :: paths' =>
      match parseTestIdsFromFile cfg fs p with
      | Throw msg => Throw msg
      | Ok found =>
          match scanAll cfg fs paths' with
          | Throw msg => Throw msg
          | Ok more => Ok (found ++ more)
          end
      end
  end.

Definition record_occurrence (reg : gmap string (list (string * string)))
  (o : occurrence) : gmap string (list (string * string)) :=
  <[id o := default [] (reg !! id o) ++ [(file o, title o)]]> reg.

Definition idOccurrences (found : list occurrence)
  : gmap string (list (string * string)) :=
  foldl record_occurrence ∅ found.

Definition duplicates (reg : gmap string (list (string * string)))
  : gmap string (list (string * string)) :=
  filter (fun kv => 1 < length kv.2) reg.

Fixpoint updateAll (cfg : config) (globalStartIndexNum : N)
  (paths : list string) (totalIncrement : N) (w : world)
  : world * option string :=
  match paths with
  | [] => (w, None)
  | p :: paths' =>
      match transformFile p cfg (globalStartIndexNum + totalIncrement)%N w
      with
      | Throw msg => (w, Some msg)
      | Ok (w', usedInFile) =>
          updateAll cfg globalStartIndexNum paths'
                    (totalIncrement + usedInFile)%N w'
      end
  end.

Inductive status : Type :=
| Failed (msg : string)
| NoFilesMatched
| Completed.

(** What a run leaves behind: the files, the duplicates it printed
    ([None] when it printed that there are none, or printed nothing),
    and how it ended. *)
Record outcome : Type := Outcome {
  final : world;
  reported : option (gmap string (list (string * string)));
  ending : status
}.

(** [main], index.cjs:202-260, from the loaded configuration and the
    paths the glob returned. After printing the duplicates the function
    goes on to step 3. *)
Definition main (cfg : config) (paths : list string) (fs : filesystem)
  : outcome :=
  let w0 := World fs [] ∅ in
  match paths with
  | [] => Outcome w0 None NoFilesMatched
  | _ =>
      match scanAll cfg fs paths with
      | Throw msg => Outcome w0 None (Failed msg)
      | Ok found =>
          let reg := idOccurrences found in
          let reported :=
            if decide (duplicates reg = ∅) then None
            else Some (duplicates reg) in
          match Js.parseInt (startIndex cfg) with
          | None =>
              Outcome w0 reported
                      (Failed "startIndex in config must be a numeric string")
          | Some globalStartIndexNum =>
              match updateAll cfg globalStartIndexNum paths 0
                              (World fs [] (dom reg)) with
              | (w, Some msg) => Outcome w reported (Failed msg)
              | (w, None) => Outcome w reported Completed
              end
          end
      end
  end.

End IndexCjs.

(** ** The clean command, first form (source file with [getIdPrefix] and
    [transformFile]) *)

Module CleanTransform.

Import Regex.

(** The pattern of [getIdPrefix]: start, a captured lazy run of any
    characters but line terminators, a captured run of one or more
    digits, end. *)
Definition baseIdRegex : regex :=
  Cat (Group (LazyStar Js.is_dot)) (Cat (Group (Plus Js.is_digit)) Eos).

Definition getIdPrefix (baseId : string) : result string :=
  match exec baseIdRegex baseId with
  | None => Throw "baseId must end with a number (e.g., e2e-001, test99)"
  | Some m => Ok (capture m 1)
  end.

(** The pattern built in [transformFile]: start, the prefix, a captured
    run of one or more digits, a colon, any white space. The prefix is
    spliced into the pattern source as it is; the model reads it as
    literal text, which is what the pattern means when the prefix has
    no character of the pattern syntax in it. *)
Definition idRegex (prefix : string) : regex :=
  Cat (Lit prefix) (Cat (Group (Plus Js.is_digit))
                        (Cat (Lit ":") (Star Js.is_space))).

(** The title read off a first argument that passed the guard. *)
Definition testTitle (firstArg : node) : option string :=
  match firstArg with
  | StringLiteral value => Some value
  | TemplateLiteral quasis [] => Some (first_quasi quasis)
  | _ => None
  end.

(** The visitor of [transformFile]; the state is [fileChanged]. A call
    that declares a test and whose first argument is missing or has no
    truthy [value] ends the visit of that call: [return false]. A first
    argument that carries a title is a literal and has no children. *)
Fixpoint visit (prefix : string) (n : node) (fileChanged : bool)
  : node * bool :=
  match n with
  | CallExpression callee args =>
      if is_it_or_test (calleeName callee) then
        match args with
        | [] => (n, fileChanged)
        | firstArg :: others =>
            if negb (value_truthy firstArg) then (n, fileChanged)
            else
              match testTitle firstArg with
              | Some t =>
                  let '(firstArg1, changed1) :=
                    if test (idRegex prefix) t
                    then (StringLiteral (replace_empty (idRegex prefix) t),
                          true)
                    else (firstArg, fileChanged) in
                  let '(callee', changed2) := visit prefix callee changed1 in
                  let '(others', changed3) :=
                    traverse_list (visit prefix) others changed2 in
                  (CallExpression callee' (firstArg1 :: others'), changed3)
              | None =>
                  let '(callee', changed1) :=
                    visit prefix callee fileChanged in
                  let '(args', changed2) :=
                    traverse_list (visit prefix) args changed1 in
                  (CallExpression callee' args', changed2)
              end
        end
      else
        let '(callee', changed1) := visit prefix callee fileChanged in
        let '(args', changed2) := traverse_list (visit prefix) args changed1 in
        (CallExpression callee' args', changed2)
  | MemberExpression object property =>
      let '(object', changed1) := visit prefix object fileChanged in
      let '(property', changed2) := visit prefix property changed1 in
      (MemberExpression object' property', changed2)
  | TemplateLiteral quasis expressions =>
      let '(expressions', changed1) :=
        traverse_list (visit prefix) expressions fileChanged in
      (TemplateLiteral quasis expressions', changed1)
  | OtherNode children =>
      let '(children', changed1) :=
        traverse_list (visit prefix) children fileChanged in
      (OtherNode children', changed1)
  | Identifier _ | StringLiteral _ | NumericLiteral _ => (n, fileChanged)
  end.

(** A run's files and the paths written so far. *)
Record world : Type := World {
  files : filesystem;
  written : list string
}.

(** [transformFile(filePath, prefix)] *)
Definition transformFile (filePath prefix : string) (w : world)
  : result world :=
  match readAndParse (files w) filePath with
  | Throw msg => Throw msg
  | Ok ast =>
      let '(ast', fileChanged) := visit prefix ast false in
      if fileChanged then
        Ok (World (<[filePath := ast']> (files w)) (written w ++ [filePath]))
      else Ok w
  end.

Fixpoint transformAll (prefix : string) (paths : list string) (w : world)
  : world * option string :=
  match paths with
  | [] => (w, None)
  | p :: paths' =>
      match transformFile p prefix w with
      | Throw msg => (w, Some msg)
      | Ok w' => transformAll prefix paths' w'
      end
  end.

Inductive status : Type :=
| Failed (msg : string)
| NoFilesMatched
| Completed.

Record outcome : Type := Outcome {
  final : world;
  ending : status
}.

(** [main], from the [baseId] argument and the paths the glob returned. *)
Definition main (baseId : string) (paths : list string) (fs : filesystem)
  : outcome :=
  let w0 := World fs [] in
  match getIdPrefix baseId with
  | Throw msg => Outcome w0 (Failed msg)
  | Ok prefix =>
      match paths with
      | [] => Outcome w0 NoFilesMatched
      | _ =>
          match transformAll prefix paths w0 with
          | (w, Some msg) => Outcome w (Failed msg)
          | (w, None) => Outcome w Completed
          end
      end
  end.

End CleanTransform.

(** ** The clean command, second form (source file with [parseBaseId]
    and [cleanFile]) *)

Module CleanFile.

Import Regex.

Definition parseBaseId (baseId : string) : result (string * nat) :=
  match exec Add.baseIdRegex baseId with
  | None => Throw "baseId must be alphanumeric like C001, T1001, etc."
  | Some m => Ok (capture m 1, String.length (capture m 2))
  end.

(** The pattern built in [cleanFile]: start, the prefix, a captured run
    of exactly [numberLength] digits, a colon, any white space. *)
Definition idRegex (prefix : string) (numberLength : nat) : regex :=
  Cat (Lit prefix) (Cat (Group (Count Js.is_digit numberLength))
                        (Cat (Lit ":") (Star Js.is_space))).

(** The visitor of [cleanFile]; the state is [fileChanged]. *)
Fixpoint visit (prefix : string) (numberLength : nat) (n : node)
  (fileChanged : bool) : node * bool :=
  match n with
  | CallExpression callee args =>
      if Add.isTest callee then
        match args with
        | [] => (n, fileChanged)
        | firstArg :: others =>
            match Add.rewrite_title firstArg with
            | None => (n, fileChanged)
            | Some title =>
                let '(firstArg1, changed1) :=
                  if test (idRegex prefix numberLength) title
                  then (StringLiteral
                          (Js.trim (replace_empty (idRegex prefix numberLength)
                                                  title)),
                        true)
                  else (firstArg, fileChanged) in
                let '(callee', changed2) :=
                  visit prefix numberLength callee changed1 in
                let '(others', changed3) :=
                  traverse_list (visit prefix numberLength) others changed2 in
                (CallExpression callee' (firstArg1 :: others'), changed3)
            end
        end
      else
        let '(callee', changed1) :=
          visit prefix numberLength callee fileChanged in
        let '(args', changed2) :=
          traverse_list (visit prefix numberLength) args changed1 in
        (CallExpression callee' args', changed2)
  | MemberExpression object property =>
      let '(object', changed1) :=
        visit prefix numberLength object fileChanged in
      let '(property', changed2) :=
        visit prefix numberLength property changed1 in
      (MemberExpression object' property', changed2)
  | TemplateLiteral quasis expressions =>
      let '(expressions', changed1) :=
        traverse_list (visit prefix numberLength) expressions fileChanged in
      (TemplateLiteral quasis expressions', changed1)
  | OtherNode children =>
      let '(children', changed1) :=
        traverse_list (visit prefix numberLength) children fileChanged in
      (OtherNode children', changed1)
  | Identifier _ | StringLiteral _ | NumericLiteral _ => (n, fileChanged)
  end.

Record world : Type := World {
  files : filesystem;
  written : list string
}.

(** [cleanFile(filePath, prefix, numberLength)] *)
Definition cleanFile (filePath prefix : string) (numberLength : nat)
  (w : world) : result world :=
  match readAndParse (files w) filePath with
  | Throw msg => Throw msg
  | Ok ast =>
      let '(ast', fileChanged) := visit prefix numberLength ast false in
      if fileChanged then
        Ok (World (<[filePath := ast']> (files w)) (written w ++ [filePath]))
      else Ok w
  end.

Fixpoint cleanAll (prefix : string) (numberLength : nat)
  (paths : list string) (w : world) : world * option string :=
  match paths with
  | [] => (w, None)
  | p :: paths' =>
      match cleanFile p prefix numberLength w with
      | Throw msg => (w, Some msg)
      | Ok w' => cleanAll prefix numberLength paths' w'
      end
  end.

Inductive status : Type :=
| Failed (msg : string)
| NoFilesMatched
| Completed.

Record outcome : Type := Outcome {
  final : world;
  ending : status
}.

(** [main], from the resolved [baseId] and the paths the glob returned. *)
Definition main (baseId : string) (paths : list string) (fs : filesystem)
  : outcome :=
  let w0 := World fs [] in
  match parseBaseId baseId with
  | Throw msg => Outcome w0 (Failed msg)
  | Ok (prefix, numberLength) =>
      match paths with
      | [] => Outcome w0 NoFilesMatched
      | _ =>
          match cleanAll prefix numberLength paths w0 with
          | (w, Some msg) => Outcome w (Failed msg)
          | (w, None) => Outcome w Completed
          end
      end
  end.

End CleanFile.

(** ** The compare command (source file with [extractIdsFromFile] and
    [compareIds]) *)

Module Compare.

Import Regex.

Definition getIdPrefix (baseId : string) : result (string * nat) :=
  match exec CleanTransform.baseIdRegex baseId with
  | None => Throw "baseId must end with a number (e.g., e2e-001, test99)"
  | Some m => Ok (capture m 1, String.length (capture m 2))
  end.

(** The pattern built in [extractIdsFromFile]: the same as in the first
    form of clean. *)
Definition idRegex (prefix : string) : regex :=
  Cat (Lit prefix) (Cat (Group (Plus Js.is_digit))
                        (Cat (Lit ":") (Star Js.is_space))).

(** An entry of [ids]. *)
Record idObject : Type := IdObject {
  number : N;
  full : string
}.

Definition extract (prefix : string) (firstArg : node) : list idObject :=
  match CleanTransform.testTitle firstArg with
  | Some t =>
      match exec (idRegex prefix) t with
      | Some m =>
          [IdObject (default 0%N (Js.parseInt (capture m 1)))
                    (prefix +:+ capture m 1)]
      | None => []
      end
  | None => []
  end.

(** The visitor of [extractIdsFromFile]. *)
Fixpoint scan (prefix : string) (n : node) : list idObject :=
  match n with
  | CallExpression callee args =>
      if is_it_or_test (calleeName callee) then
        match args with
        | [] => []
        | firstArg :: _ =>
            if negb (value_truthy firstArg) then []
            else extract prefix firstArg ++ scan prefix callee
                   ++ flat_map (scan prefix) args
        end
      else scan prefix callee ++ flat_map (scan prefix) args
  | MemberExpression object property =>
      scan prefix object ++ scan prefix property
  | TemplateLiteral _ expressions => flat_map (scan prefix) expressions
  | OtherNode children => flat_map (scan prefix) children
  | Identifier _ | StringLiteral _ | NumericLiteral _ => []
  end.

Definition extractIdsFromFile (fs : filesystem) (filePath prefix : string)
  : result (list idObject) :=
  match readAndParse fs filePath with
  | Ok ast => Ok (scan prefix ast)
  | Throw msg => Throw msg
  end.

(** [fullMap]: a [Map] keeps its keys in insertion order. *)
Fixpoint count_up (key : string) (m : list (string * nat))
  : list (string * nat) :=
  match m with
  | [] => [(key, 1)]
  | (k, c) :: m' =>
      if String.eqb k key then (k, c + 1) :: m' else (k, c) :: count_up key m'
  end.

(** [[...new Set(numbers)]]: the distinct numbers, first occurrences
    first. *)
Definition distinct (numbers : list N) : list N :=
  foldl (fun acc x => if bool_decide (x ∈ acc) then acc else acc ++ [x])
        [] numbers.

Fixpoint insert_sorted (x : N) (l : list N) : list N :=
  match l with
  | [] => [x]
  | y :: l' => if (x <=? y)%N then x :: l else y :: insert_sorted x l'
  end.

(** [.sort((a, b) => a - b)] *)
Definition sort_ascending (l : list N) : list N :=
  foldr insert_sorted [] l.

(** The integers [from], [from + 1], ..., [to]. *)
Definition range (from to : N) : list N :=
  (fun k => (from + N.of_nat k)%N) <$> seq 0 (N.to_nat (to + 1 - from)).

Record comparison : Type := Comparison {
  missing : list N;
  duplicates : list string
}.

(** [compareIds(idObjects, baseNumber = 1)]. With no number at all the
    bound of the loop is [undefined] and the loop does not run. *)
Definition compareIds (idObjects : list idObject) (baseNumber : N)
  : comparison :=
  let numbers := number <$> idObjects in
  let fullMap := foldl (fun m o => count_up (full o) m) [] idObjects in
  let duplicates := fst <$> filter (fun kc => 1 < kc.2) fullMap in
  let sorted := sort_ascending (distinct numbers) in
  let missing :=
    match last sorted with
    | None => []
    | Some bound =>
        filter (fun i => i ∉ sorted) (range baseNumber bound)
    end in
  Comparison missing duplicates.

Fixpoint extractAll (fs : filesystem) (prefix : string)
  (paths : list string) : result (list idObject) :=
  match paths with
  | [] => Ok []
  | p :: paths' =>
      match extractIdsFromFile fs p prefix with
      | Throw msg => Throw msg
      | Ok ids =>
          match extractAll fs prefix paths' with
          | Throw msg => Throw msg
          | Ok more => Ok (ids ++ more)
          end
      end
  end.

(** What [main] prints. *)
Inductive output : Type :=
| Failed (msg : string)
| NoFilesMatched
| Report (total : nat) (duplicateIds : list string) (missingIds : list string).

(** [main]: [compareIds] is called with the identifiers alone. *)
Definition main (baseId : string) (paths : list string) (fs : filesystem)
  : output :=
  match getIdPrefix baseId with
  | Throw msg => Failed msg
  | Ok (prefix, padding) =>
      match paths with
      | [] => NoFilesMatched
      | _ =>
          match extractAll fs prefix paths with
          | Throw msg => Failed msg
          | Ok allIds =>
              let c := compareIds allIds 1 in
              Report (length allIds) (duplicates c)
                     (format_id prefix padding <$> missing c)
          end
      end
  end.

End Compare.

(** ** More JavaScript primitives: texts, numbers with a sign, option
    values *)

Module JsText.

(** [s.includes(c)] for a text [c] of one character. *)
Fixpoint includes (c : ascii) (s : string) : bool :=
  match s with
  | "" => false
  | String x s' => Ascii.eqb x c || includes c s'
  end.

(** [s.split(c)] for a separator [c] of one character: the pieces
    between the separators, in order; one piece, the text itself, when
    there is no separator. *)
Fixpoint split (c : ascii) (s : string) : list string :=
  match s with
  | "" => [""]
  | String x s' =>
      if Ascii.eqb x c then "" :: split c s'
      else
        match split c s' with
        | piece :: pieces => String x piece :: pieces
        | [] => [String x ""]
        end
  end.

End JsText.

Module JsNumber.

(** [parseInt(s, 10)] on any string: leading white space is skipped, a
    sign is read, then the longest run of digits; [None] (NaN) when no
    digit follows. *)
Definition parseInt (s : string) : option Z :=
  let t := Js.trimStart s in
  let '(negative, body) :=
    match t with
    | String "-" body => (true, body)
    | String "+" body => (false, body)
    | _ => (false, t)
    end in
  match Js.take_while Js.is_digit body with
  | "" => None
  | ds =>
      let n := Z.of_N (Js.digits_value ds 0) in
      Some (if negative then - n else n)%Z
  end.

(** [n.toString()] for an integer. *)
Definition toString (n : Z) : string :=
  if (n <? 0)%Z then "-" +:+ Js.toString (Z.to_N (- n))
  else Js.toString (Z.to_N n).

End JsNumber.

Module JsValue.

(** The value of an option, as far as the sources tell values apart:
    they test it for [undefined] and [null], for being a string, for
    truthiness, and compare a string with ['true']. Anything that is
    neither nullish, a boolean nor a string (a number, an array, an
    object of a configuration file) is an [Other] with its
    truthiness. *)
Inductive value : Type :=
| Undefined
| Null
| Boolean (b : bool)
| Text (s : string)
| Other (truthy : bool).

Definition truthy (v : value) : bool :=
  match v with
  | Undefined | Null => false
  | Boolean b => b
  | Text s => Js.truthy_string s
  | Other t => t
  end.

(** [a || b] *)
Definition or_else (a b : value) : value := if truthy a then a else b.

(** [a ?? b] *)
Definition coalesce (a b : value) : value :=
  match a with
  | Undefined | Null => b
  | _ => a
  end.

(** An object as the map of its own properties; [o.key] is [undefined]
    for a key it does not have. *)
Abbreviation object := (gmap string value).

Definition get (o : object) (key : string) : value :=
  default Undefined (o !! key).

(** [o[key] = v] on an object created by a literal. The key [__proto__]
    names the accessor of the prototype, which ignores a value that is
    not an object: the assignment creates no property. *)
Definition set (o : object) (key : string) (v : value) : object :=
  if String.eqb key "__proto__" then o else <[key := v]> o.

End JsValue.

(** ** The command line (src/bin/cli.js) *)

Module Cli.

Import JsValue.

(** The body of the loop of [parseArgs], cli.js:29-36. The pattern
    [[key, val]] takes the first two pieces of the split; an argument
    without [=] is a flag. *)
Definition parseArg (options : object) (arg : string) : object :=
  if JsText.includes "=" arg then
    let pieces := JsText.split "=" arg in
    set options (default "undefined" (pieces !! 0))
        (from_option Text Undefined (pieces !! 1))
  else set options arg (Boolean true).

(** [parseArgs(args)], cli.js:27-38. *)
Definition parseArgs (args : list string) : object :=
  foldl parseArg ∅ args.

End Cli.

(** ** The options of add (src/commands/add.js, [loadConfigFile] and
    [resolveConfig]) *)

Module AddConfig.

Import JsValue.

(** The candidate paths, relative to the working directory, with the
    separator of POSIX systems. *)
Definition CONFIG_FILES : list string :=
  ["testIdInjector.config.json";
   "cypress/testIdInjector.config.json";
   "playwright/testIdInjector.config.json"].

(** The configuration files that exist: each is bound to what
    [JSON.parse] makes of its text, a throw or the properties of the
    value parsed (none when the value is not an object, as every read
    of a property of such a value gives [undefined]). *)
Abbreviation configStore := (gmap string (result object)).

(** The loop of [loadConfigFile], add.js:16-24, over the candidates
    left; [None] is the [null] returned when no candidate exists. *)
Fixpoint loadFirst (store : configStore) (candidates : list string)
  : result (option object) :=
  match candidates with
  | [] => Ok None
  | configFile :: candidates' =>
      match store !! configFile with
      | Some (Ok properties) => Ok (Some properties)
      | Some (Throw msg) => Throw msg
      | None => loadFirst store candidates'
      end
  end.

Definition loadConfigFile (store : configStore) : result (option object) :=
  loadFirst store CONFIG_FILES.

Record merged : Type := Merged {
  baseId : value;
  overwriteExistingIds : value;
  glob : value
}.

(** [resolveConfig(cliOptions)], add.js:27-40, after [fileConfig] has
    been loaded. *)
Definition resolveConfig (cliOptions fileConfig : object) : merged :=
  let overwrite :=
    coalesce (coalesce (get cliOptions "overwrite")
                       (get fileConfig "overwriteExistingIds"))
             (Boolean false) in
  Merged
    (or_else (or_else (get cliOptions "baseId") (get fileConfig "baseId"))
             (Text "0001"))
    match overwrite with
    | Text s => Boolean (String.eqb s "true")
    | v => v
    end
    (or_else (or_else (get cliOptions "files") (get fileConfig "glob"))
             (Text "tests/**/*.@(ts|js)")).

(** [main(cliOptions)], add.js:186-240, from the options the command
    line gave: the configuration is resolved, the seed parsed, the glob
    expanded by [globSync], and the run goes on as [Add.main] tells. A
    seed that is not a string has no [match] method. *)
Definition main (globSync : value -> result (list string))
  (store : configStore) (cliOptions : object) (fs : filesystem)
  : Add.outcome :=
  let w0 := Add.World fs [] [] ∅ in
  match loadConfigFile store with
  | Throw msg => Add.Outcome w0 (Add.Failed msg)
  | Ok fileConfig =>
      let config := resolveConfig cliOptions (default ∅ fileConfig) in
      match baseId config with
      | Text seed =>
          match Add.parseBaseId seed with
          | Throw msg => Add.Outcome w0 (Add.Failed msg)
          | Ok _ =>
              match globSync (glob config) with
              | Throw msg => Add.Outcome w0 (Add.Failed msg)
              | Ok paths =>
                  Add.main
                    (Add.Options seed (truthy (overwriteExistingIds config)))
                    paths fs
              end
          end
      | _ => Add.Outcome w0 (Add.Failed "baseId.match is not a function")
      end
  end.

End AddConfig.

(** ** The arguments of clean (first form) and of compare

    Both sources have the same [parseArgs]; the messages differ in the
    example they end with, which is left out here. *)

Module CommandArgs.

(** What the loop has stored so far; [None] stands for the initial
    [null] and for the [undefined] an argument without [=] stores. *)
Record parsed : Type := Parsed {
  baseId : option string;
  files : option string
}.

(** The body of the loop of [parseArgs]. *)
Definition parseArg (p : parsed) (arg : string) : parsed :=
  let pieces := JsText.split "=" arg in
  let key := pieces !! 0 in
  let value := pieces !! 1 in
  let p1 := if bool_decide (key = Some "baseId")
            then Parsed value (files p) else p in
  if bool_decide (key = Some "files") then Parsed (baseId p1) value else p1.

Definition given (v : option string) : bool :=
  match v with
  | Some s => Js.truthy_string s
  | None => false
  end.

(** [parseArgs(args)]: the two values, when both are given. *)
Definition parseArgs (args : list string) : result (string * string) :=
  let p := foldl parseArg (Parsed None None) args in
  match baseId p, files p with
  | Some b, Some f =>
      if Js.truthy_string b && Js.truthy_string f then Ok (b, f)
      else Throw "Both 'baseId' and 'files' must be specified."
  | _, _ => Throw "Both 'baseId' and 'files' must be specified."
  end.

End CommandArgs.

(** ** A helper of the first add script (src/index.cjs,
    [incrementStringNumber]) *)

Module IndexCjsUtil.


End IndexCjsUtil.

(** ** The add command, other form (second document of
    src/commands/add.js: [parseCliOptions], [extractTestIds], no
    duplicate check) *)

Module AddV2.

Import Regex.

(** The options object; a [None] stands for a property that is missing
    or [undefined]. [overwriteExistingIds] is either missing or
    [true]. *)
Record options : Type := Options {
  overwriteExistingIds : bool;
  baseId : option string;
  glob : option string
}.

(** The body of the loop of [parseCliOptions], add.js:251-260. *)
Definition parseCliOption (o : options) (arg : string) : options :=
  let pieces := JsText.split "=" arg in
  let key := pieces !! 0 in
  let value := pieces !! 1 in
  if bool_decide (key = Some "overwrite") then
    Options true (baseId o) (glob o)
  else if bool_decide (key = Some "baseId") then
    Options (overwriteExistingIds o) value (glob o)
  else if bool_decide (key = Some "files") then
    Options (overwriteExistingIds o) (baseId o) value
  else o.

(** [parseCliOptions()], from the arguments after the command name. *)
Definition parseCliOptions (args : list string) : options :=
  foldl parseCliOption (Options false None None) args.

(** The pattern of add.js:265: start, a captured lazy run of one or
    more characters other than line terminators, a captured run of one
    or more digits, end. *)
Definition baseIdRegex : regex :=
  Cat (Group (Cat (Count Js.is_dot 1) (LazyStar Js.is_dot)))
      (Cat (Group (Plus Js.is_digit)) Eos).

Record seed : Type := Seed {
  prefix : string;
  numLength : nat;
  startNumber : N
}.

Definition parseBaseId (baseId : string) : result seed :=
  match exec baseIdRegex baseId with
  | None => Throw ("Invalid baseId format: " +:+ baseId)
  | Some m =>
      Ok (Seed (capture m 1) (String.length (capture m 2))
               (default 0%N (Js.parseInt (capture m 2))))
  end.

(** The pattern of add.js:374 and add.js:423: start, a group holding
    the prefix and exactly [numLength] digits, a colon, any white
    space. The prefix is spliced into the pattern source; the model
    reads it as literal text, which is what the pattern means when the
    prefix has no character of the pattern syntax in it. *)
Definition idPattern (basePrefix : string) (numLength : nat) : regex :=
  Cat (Group (Cat (Lit basePrefix) (Count Js.is_digit numLength)))
      (Cat (Lit ":") (Star Js.is_space)).

(** add.js:302-315 and add.js:360-372: the title read off a first
    argument that is a string literal or a template literal; it is the
    empty text for a template literal with expressions. *)
Definition testTitle (firstArg : node) : option string :=
  match firstArg with
  | TemplateLiteral quasis [] => Some (first_quasi quasis)
  | TemplateLiteral _ (_ :: _) => Some ""
  | StringLiteral value => Some value
  | _ => None
  end.

(** The title of a call that declares a test. *)
Definition declared_title (callee : node) (args : list node)
  : option string :=
  if is_it_or_test (calleeName callee) then
    match args with
    | firstArg :: _ => testTitle firstArg
    | [] => None
    end
  else None.

Definition found (idPattern : regex) (callee : node) (args : list node)
  : list string :=
  match declared_title callee args with
  | Some t =>
      match exec idPattern t with
      | Some m => [capture m 1]
      | None => []
      end
  | None => []
  end.

(** The visitor of [extractTestIds], add.js:288-324, on the parsed
    tree. *)
Fixpoint extractTestIds (idPattern : regex) (n : node) : list string :=
  match n with
  | CallExpression callee args =>
      found idPattern callee args
        ++ extractTestIds idPattern callee
        ++ flat_map (extractTestIds idPattern) args
  | MemberExpression object property =>
      extractTestIds idPattern object ++ extractTestIds idPattern property
  | TemplateLiteral _ expressions =>
      flat_map (extractTestIds idPattern) expressions
  | OtherNode children => flat_map (extractTestIds idPattern) children
  | Identifier _ | StringLiteral _ | NumericLiteral _ => []
  end.

Record tstate : Type := TState {
  usedIds : gset string;
  localIndex : N;
  fileChanged : bool
}.

(** The [do ... while (usedIds.has(newId))] loop, add.js:384-387;
    [fuel] counts the iterations still allowed after the current
    one. *)
Fixpoint next_free (fuel : nat) (basePrefix : string) (numLength : nat)
  (used : gset string) (newIdNum : N) : string * N :=
  let newId := format_id basePrefix numLength newIdNum in
  let newIdNum' := (newIdNum + 1)%N in
  match fuel with
  | O => (newId, newIdNum')
  | S fuel' =>
      if decide (newId ∈ used)
      then next_free fuel' basePrefix numLength used newIdNum'
      else (newId, newIdNum')
  end.

(** add.js:382-402 for one declaration with title [testTitle]: the
    title written and the state. *)
Definition assign (basePrefix : string) (numLength : nat) (startIndex : N)
  (testTitle : string) (st : tstate) : string * tstate :=
  let '(newId, newIdNum) :=
    next_free (size (usedIds st)) basePrefix numLength (usedIds st)
              (startIndex + localIndex st)%N in
  let cleanTitle :=
    Js.trim (replace_empty (idPattern basePrefix numLength) testTitle) in
  (newId +:+ ": " +:+ cleanTitle,
   TState ({[newId]} ∪ usedIds st) (newIdNum - startIndex)%N true).

(** The visitor of [transformFile], add.js:345-407. The children of a
    call are traversed whatever its shape; a first argument that has
    been given a title is a string literal by then and has no
    children. *)
Fixpoint visit (overwrite : bool) (basePrefix : string) (numLength : nat)
  (startIndex : N) (n : node) (st : tstate) : node * tstate :=
  let go := visit overwrite basePrefix numLength startIndex in
  match n with
  | CallExpression callee args =>
      match declared_title callee args, args with
      | Some t, firstArg :: others =>
          if test (idPattern basePrefix numLength) t && negb overwrite then
            let '(callee', st1) := go callee st in
            let '(args', st2) := traverse_list go args st1 in
            (CallExpression callee' args', st2)
          else
            let '(finalTitle, st1) :=
              assign basePrefix numLength startIndex t st in
            let '(callee', st2) := go callee st1 in
            let '(others', st3) := traverse_list go others st2 in
            (CallExpression callee' (StringLiteral finalTitle :: others'),
             st3)
      | _, _ =>
          let '(callee', st1) := go callee st in
          let '(args', st2) := traverse_list go args st1 in
          (CallExpression callee' args', st2)
      end
  | MemberExpression object property =>
      let '(object', st1) := go object st in
      let '(property', st2) := go property st1 in
      (MemberExpression object' property', st2)
  | TemplateLiteral quasis expressions =>
      let '(expressions', st1) := traverse_list go expressions st in
      (TemplateLiteral quasis expressions', st1)
  | OtherNode children =>
      let '(children', st1) := traverse_list go children st in
      (OtherNode children', st1)
  | Identifier _ | StringLiteral _ | NumericLiteral _ => (n, st)
  end.

Record world : Type := World {
  files : filesystem;
  written : list string;
  used : gset string
}.

(** [transformFile(filePath, config, usedIds, basePrefix, numLength,
    startIndex)], add.js:329-413. *)
Definition transformFile (filePath : string) (overwrite : bool)
  (basePrefix : string) (numLength : nat) (startIndex : N) (w : world)
  : result world :=
  match readAndParse (files w) filePath with
  | Throw msg => Throw msg
  | Ok ast =>
      let '(ast', st) :=
        visit overwrite basePrefix numLength startIndex ast
              (TState (used w) 0 false) in
      if fileChanged st then
        Ok (World (<[filePath := ast']> (files w)) (written w ++ [filePath])
                  (usedIds st))
      else Ok (World (files w) (written w) (usedIds st))
  end.

(** The first loop of [main], add.js:426-431: the identifiers of all
    files. *)
Fixpoint scanAll (idPattern : regex) (fs : filesystem)
  (paths : list string) : result (list string) :=
  match paths with
  | [] => Ok []
  | p :: paths' =>
      match readAndParse fs p with
      | Throw msg => Throw msg
      | Ok ast =>
          match scanAll idPattern fs paths' with
          | Throw msg => Throw msg
          | Ok more => Ok (extractTestIds idPattern ast ++ more)
          end
      end
  end.

(** The second loop of [main], add.js:433-435: every file starts from
    the number of the seed. *)
Fixpoint updateAll (overwrite : bool) (basePrefix : string)
  (numLength : nat) (startNumber : N) (paths : list string) (w : world)
  : world * option string :=
  match paths with
  | [] => (w, None)
  | p :: paths' =>
      match transformFile p overwrite basePrefix numLength startNumber w with
      | Throw msg => (w, Some msg)
      | Ok w' =>
          updateAll overwrite basePrefix numLength startNumber paths' w'
      end
  end.

Inductive status : Type :=
| Failed (msg : string)
| Completed.

Record outcome : Type := Outcome {
  final : world;
  ending : status
}.

(** [main], add.js:415-440, from the parsed options and the paths the
    glob returns for [options.glob]. *)
Definition main (o : options) (paths : list string) (fs : filesystem)
  : outcome :=
  let w0 := World fs [] ∅ in
  if negb (CommandArgs.given (baseId o) && CommandArgs.given (glob o)) then
    Outcome w0 (Failed "Missing required options: baseId and files")
  else
    match parseBaseId (default "" (baseId o)) with
    | Throw msg => Outcome w0 (Failed msg)
    | Ok s =>
        let pattern := idPattern (prefix s) (numLength s) in
        match scanAll pattern fs paths with
        | Throw msg => Outcome w0 (Failed msg)
        | Ok ids =>
            match updateAll (overwriteExistingIds o) (prefix s)
                            (numLength s) (startNumber s) paths
                            (World fs [] (list_to_set ids)) with
            | (w, Some msg) => Outcome w (Failed msg)
            | (w, None) => Outcome w Completed
            end
        end
    end.

End AddV2.

(** ** Vocabulary of the statements *)

Module RegexSpec.
Import Regex.

(** What a pattern denotes: the consumed texts [c], each with the text
    [t] that must follow it and the captures [k] it leaves. *)
Fixpoint matches (r : regex) (c t : string) (k : list string) : Prop :=
  match r with
  | Lit l => c = l ∧ k = []
  | Star p | LazyStar p => Js.all_chars p c = true ∧ k = []
  | Plus p => c ≠ "" ∧ Js.all_chars p c = true ∧ k = []
  | Count p n => String.length c = n ∧ Js.all_chars p c = true ∧ k = []
  | Group r => ∃ k', matches r c t k' ∧ k = k' ++ [c]
  | Cat r1 r2 =>
      ∃ c1 c2 k1 k2,
        c = c1 +:+ c2 ∧ k = k1 ++ k2
        ∧ matches r1 c1 (c2 +:+ t) k1 ∧ matches r2 c2 t k2
  | Eos => c = "" ∧ t = "" ∧ k = []
  end.

End RegexSpec.

(** The number a digit string denotes, leading zeros allowed. *)
Definition decimal_value (s : string) : option N :=
  N.of_uint <$> NilEmpty.uint_of_string s.

Module AddSpec.
Import Add.

(** The identifiers a console records as allocated, oldest first. *)
Fixpoint assigned (evs : list event) : list string :=
  match evs with
  | [] => []
  | Updating _ _ nextId _ _ :: evs' => nextId :: assigned evs'
  | _ :: evs' => assigned evs'
  end.

(** The cursor after the last allocation of a console. *)
Fixpoint cursor_after (cursor : N) (evs : list event) : N :=
  match evs with
  | [] => cursor
  | Updating _ _ _ _ c' :: evs' => cursor_after c' evs'
  | _ :: evs' => cursor_after cursor evs'
  end.

(** A console is an allocation chain from a cursor and a set of
    identifiers seen so far when, at each allocation, the cursor has
    not moved backwards and moves forwards, every identifier seen so
    far is in the used-id set the candidate was checked against, and
    the identifier allocated is not; the identifier is seen from
    then on. *)
Fixpoint allocation_chain (cursor : N) (seen : gset string)
  (evs : list event) : Prop :=
  match evs with
  | [] => True
  | Updating c u nextId _ c' :: evs' =>
      (cursor ≤ c)%N ∧ (c < c')%N ∧ seen ⊆ u ∧ (nextId ∉ u)
      ∧ allocation_chain c' ({[nextId]} ∪ seen) evs'
  | _ :: evs' => allocation_chain cursor seen evs'
  end.

(** How a stretch of the rewrite phase extends a run: it appends to the
    console an allocation chain that starts at the current cursor and
    used-id set and ends at the new ones. *)
Definition extends (c : N) (u : gset string) (l : list event)
  (c' : N) (u' : gset string) (l' : list event) : Prop :=
  ∃ evs,
    l' = l ++ evs
    ∧ allocation_chain c u evs
    ∧ cursor_after c evs = c'
    ∧ (c ≤ c')%N
    ∧ u' = list_to_set (assigned evs) ∪ u.

Definition advances (base : N) (st st' : tstate) : Prop :=
  extends (base + localInc st) (usedIds st) (log st)
          (base + localInc st') (usedIds st') (log st').

End AddSpec.

Module TitleSpec.

(** The title begins with the prefix, exactly [width] digits, a colon
    and optional white space. *)
Definition begins_with_id (prefix : string) (width : nat) (title : string)
  : Prop :=
  ∃ digits spaces rest,
    title = prefix +:+ digits +:+ ":" +:+ spaces +:+ rest
    ∧ String.length digits = width
    ∧ Js.all_chars Js.is_digit digits = true
    ∧ Js.all_chars Js.is_space spaces = true.

(** The title begins with the prefix, one or more digits, a colon and
    optional white space. *)
Definition begins_with_number (prefix : string) (title : string) : Prop :=
  ∃ digits spaces rest,
    title = prefix +:+ digits +:+ ":" +:+ spaces +:+ rest
    ∧ digits ≠ ""
    ∧ Js.all_chars Js.is_digit digits = true
    ∧ Js.all_chars Js.is_space spaces = true.

(** The characters that mean something other than themselves in the
    source of a pattern. *)
Definition is_syntax_char (c : ascii) : bool :=
  bool_decide (c ∈ list_ascii_of_string "\^$.*+?()[]{}|").

(** A text that, spliced into the source of a pattern, stands for
    itself. *)
Definition literal_source (text : string) : bool :=
  Js.all_chars (fun c => negb (is_syntax_char c)) text.

End TitleSpec.

Module SeedSpec.

(** The last character of the text is a digit. *)
Fixpoint ends_in_digit (s : string) : bool :=
  match s with
  | "" => false
  | String c "" => Js.is_digit c
  | String _ s' => ends_in_digit s'
  end.

(** What the lazy prefix group of [getIdPrefix] does to an attempt on
    the rest of the subject when it takes one more character. *)
Definition shift (x : ascii) (a : Regex.attempt) : Regex.attempt :=
  Regex.Attempt (String x (Regex.consumed a)) (Regex.rest a)
    match Regex.captures a with
    | k1 :: ks => String x k1 :: ks
    | [] => []
    end.


End SeedSpec.

Module CompareSpec.

(** Every element of the list is at most the elements after it. *)
Definition ascending (l : list N) : Prop :=
  ∀ i j x y, l !! i = Some x → l !! j = Some y → i ≤ j → (x ≤ y)%N.

End CompareSpec.

Module GapSpec.
Import Add.




End GapSpec.

Module RegistrySpec.
Import Add.
(** The (file, title) pairs of the occurrences that bear an identifier,
    in scan order. *)
Definition bearers (i : string) (found : list occurrence)
  : list (string * string) :=
  (fun o => (file o, title o)) <$> filter (fun o => id o = i) found.
End RegistrySpec.

Module ArgsSpec.

(** What holds of a value the loop of parseArgs has stored for a key:
    it is the text between the first [=] and the second one, or the
    end, of an argument that begins with the key and [=]. *)
Definition stored_from (key : string) (args : list string) (v : string)
  : Prop :=
  JsText.includes "=" v = false
  ∧ ∃ arg rest, arg ∈ args ∧ arg = key +:+ String "=" (v +:+ rest)
                ∧ (rest = "" ∨ ∃ r, rest = String "=" r).

End ArgsSpec.

Module ReportSpec.
Import Compare.

(** How many of the identifiers found have the text [i]. *)
Definition occurrences (i : string) (idObjects : list idObject) : nat :=
  length (filter (fun o => full o = i) idObjects).

End ReportSpec.

(** ** Trees before and after a rewrite *)

Module TreeSpec.
Import Add.


(** A console line that reports no change. *)
Definition quiet (e : event) : Prop :=
  match e with
  | Skipping _ | NoChanges _ => True
  | _ => False
  end.




End TreeSpec.
(** ** Sample file sets *)

Module Fixtures.

(** [it(<firstArg>, () => { <body> });] as a statement. *)
Definition it_ (firstArg : node) (body : list node) : node :=
  OtherNode [CallExpression (Identifier "it")
                            [firstArg; OtherNode [OtherNode body]]].

Definition program (statements : list node) : node := OtherNode statements.

(** Two tests bear 0001, a third has no identifier. *)
Definition duplicated : filesystem :=
  {[ "a.test.js" :=
       program [it_ (StringLiteral "0001: a") [];
                it_ (StringLiteral "0001: b") [];
                it_ (StringLiteral "c") []] ]}.

Definition duplicated_after : node :=
  program [it_ (StringLiteral "0001: a") [];
           it_ (StringLiteral "0001: b") [];
           it_ (StringLiteral "0002: c") []].

(** Identifiers 5 and 7 under the prefix e2e-. *)
Definition five_and_seven : filesystem :=
  {[ "a.test.js" :=
       program [it_ (StringLiteral "e2e-005: a") [];
                it_ (StringLiteral "e2e-007: b") []] ]}.

(** One test whose title is a template literal without expressions. *)
Definition template_titled : filesystem :=
  {[ "a.test.js" :=
       program [it_ (TemplateLiteral ["e2e-001: logs in"] []) []] ]}.

(** Two tests without identifiers. *)
Definition two_plain : filesystem :=
  {[ "a.test.js" :=
       program [it_ (StringLiteral "a") []; it_ (StringLiteral "b") []] ]}.

Definition two_plain_added : node :=
  program [it_ (StringLiteral "T9: a") []; it_ (StringLiteral "T10: b") []].

Definition two_plain_added_twice : node :=
  program [it_ (StringLiteral "T9: a") [];
           it_ (StringLiteral "T10: T10: b") []].

Definition two_plain_cleaned : node :=
  program [it_ (StringLiteral "a") []; it_ (StringLiteral "T10: b") []].

(** A test with a computed title that contains a test bearing C001. *)
Definition nested_in_computed : node :=
  CallExpression (Identifier "it")
    [Identifier "name";
     OtherNode [OtherNode [OtherNode
       [CallExpression (Identifier "it")
                       [StringLiteral "C001: inner"; OtherNode []]]]]].

(** Two files: a test that bears C002 and one without identifier, then
    a file with one test without identifier. *)
Definition two_files : filesystem :=
  {[ "a.test.js" :=
       program [it_ (StringLiteral "C002: kept") [];
                it_ (StringLiteral "new one") []];
     "b.test.js" := program [it_ (StringLiteral "another") []] ]}.

End Fixtures.

(** * Properties *)

Set Warnings "-clear-no-such-hyp".

(** Takes apart the hypotheses that a text matches a concatenation of
    groups and simple patterns. *)
Ltac decompose_matches :=
  repeat match goal with
         | H : _ ∧ _ |- _ => destruct H
         | H : ∃ _, _ |- _ => destruct H
         end; subst.

Section StringFacts.

Lemma app_nil_r_str (s : string) : s +:+ "" = s.
Proof. induction s as [|c s IH]; simpl; [done | by rewrite IH]. Qed.

Lemma app_assoc_str (a b c : string) : (a +:+ b) +:+ c = a +:+ (b +:+ c).
Proof. induction a as [|x a IH]; simpl; [done | by rewrite IH]. Qed.


Lemma all_chars_app p (a b : string) :
  Js.all_chars p (a +:+ b) = Js.all_chars p a && Js.all_chars p b.
Proof.
  induction a as [|x a IH]; simpl; [done |].
  rewrite IH. by destruct (p x).
Qed.

Lemma app_eq_nil_str (a b : string) : a +:+ b = "" → a = "" ∧ b = "".
Proof. destruct a; simpl; [done | discriminate]. Qed.

End StringFacts.

Section RegexFacts.
Import Regex RegexSpec.

Lemma strip_literal_spec l s s' :
  strip_literal l s = Some s' ↔ s = l +:+ s'.
Proof.
  revert s. induction l as [|a l IH]; intros s; simpl.
  - split; [by intros [= ->] | by intros ->].
  - destruct s as [|b s]; [split; discriminate |].
    destruct (Ascii.eqb_spec a b) as [->|Hne].
    + rewrite IH. split; [by intros -> | by intros [= ->]].
    + split; [discriminate | intros [= ? ?]; congruence].
Qed.

Lemma elem_of_cons_char x (l : list attempt) c t k :
  Attempt c t k ∈ cons_char x <$> l
  ↔ ∃ c', c = String x c' ∧ Attempt c' t k ∈ l.
Proof.
  rewrite list_elem_of_fmap. split.
  - intros ([c' t' k'] & [= -> -> ->] & Hb). by exists c'.
  - intros (c' & -> & Ha). by exists (Attempt c' t k).
Qed.

Lemma star_greedy_spec p s c t k :
  Attempt c t k ∈ star_greedy p s
  ↔ s = c +:+ t ∧ Js.all_chars p c = true ∧ k = [].
Proof.
  revert c. induction s as [|x s IH]; intros c; simpl.
  - rewrite list_elem_of_singleton. split.
    + by intros [= -> -> ->].
    + intros (H & _ & ->). symmetry in H. by apply app_eq_nil_str in H as [-> ->].
  - destruct (p x) eqn:Hp.
    + rewrite elem_of_app, elem_of_cons_char, list_elem_of_singleton. split.
      * intros [(c' & -> & (-> & Hc & ->)%IH)|[= -> -> ->]]; [|done].
        simpl. by rewrite Hp.
      * intros (Hs & Hc & ->). destruct c as [|y c]; simpl in *.
        -- right. by subst t.
        -- injection Hs as <- ->. rewrite Hp in Hc. left. exists c.
           split; [done |]. by apply IH.
    + rewrite list_elem_of_singleton. split.
      * by intros [= -> -> ->].
      * intros (Hs & Hc & ->). destruct c as [|y c]; simpl in *.
        -- by subst t.
        -- injection Hs as <- ->. by rewrite Hp in Hc.
Qed.

Lemma star_lazy_spec p s c t k :
  Attempt c t k ∈ star_lazy p s
  ↔ s = c +:+ t ∧ Js.all_chars p c = true ∧ k = [].
Proof.
  revert c. induction s as [|x s IH]; intros c; simpl.
  - rewrite list_elem_of_singleton. split.
    + by intros [= -> -> ->].
    + intros (H & _ & ->). symmetry in H. by apply app_eq_nil_str in H as [-> ->].
  - destruct (p x) eqn:Hp.
    + rewrite elem_of_cons, elem_of_cons_char. split.
      * intros [[= -> -> ->]|(c' & -> & (-> & Hc & ->)%IH)]; [done |].
        simpl. by rewrite Hp.
      * intros (Hs & Hc & ->). destruct c as [|y c]; simpl in *.
        -- left. by subst t.
        -- injection Hs as <- ->. rewrite Hp in Hc. right. exists c.
           split; [done |]. by apply IH.
    + rewrite list_elem_of_singleton. split.
      * by intros [= -> -> ->].
      * intros (Hs & Hc & ->). destruct c as [|y c]; simpl in *.
        -- by subst t.
        -- injection Hs as <- ->. by rewrite Hp in Hc.
Qed.

Lemma count_exact_spec p n s c t k :
  Attempt c t k ∈ count_exact p n s
  ↔ s = c +:+ t ∧ String.length c = n ∧ Js.all_chars p c = true ∧ k = [].
Proof.
  revert s c. induction n as [|n IH]; intros s c; simpl.
  - rewrite list_elem_of_singleton. split.
    + by intros [= -> -> ->].
    + intros (-> & Hl & _ & ->). by destruct c.
  - destruct s as [|x s].
    + rewrite elem_of_nil. split; [done |].
      intros (H & Hl & _). symmetry in H. apply app_eq_nil_str in H as [-> _].
      discriminate.
    + destruct (p x) eqn:Hp.
      * rewrite elem_of_cons_char. split.
        -- intros (c' & -> & (-> & <- & Hc & ->)%IH). simpl. by rewrite Hp.
        -- intros (Hs & Hl & Hc & ->). destruct c as [|y c]; [discriminate |].
           simpl in *. injection Hs as <- ->. rewrite Hp in Hc.
           exists c. split; [done |]. apply IH. split_and!; [done | lia | done | done].
      * rewrite elem_of_nil. split; [done |].
        intros (Hs & Hl & Hc & _). destruct c as [|y c]; [discriminate |].
        simpl in *. injection Hs as <- ->. by rewrite Hp in Hc.
Qed.

(** The attempts of a pattern on a subject are exactly the ways of
    splitting the subject into a text the pattern denotes and a rest,
    with the captures the pattern leaves. *)
Theorem attempts_spec r s c t k :
  Attempt c t k ∈ attempts r s ↔ s = c +:+ t ∧ matches r c t k.
Proof.
  revert s c t k. induction r as [l|p|p|p|p n|r IH|r1 IH1 r2 IH2|];
    intros s c t k; simpl.
  - destruct (strip_literal l s) as [s'|] eqn:Hs.
    + apply strip_literal_spec in Hs as ->. rewrite list_elem_of_singleton. split.
      * by intros [= -> -> ->].
      * intros (Hs & -> & ->). by apply (inj (String.app l)) in Hs as <-.
    + rewrite elem_of_nil. split; [done |]. intros (-> & -> & _).
      assert (strip_literal l (l +:+ t) = Some t) as H
        by (by apply strip_literal_spec). congruence.
  - apply star_greedy_spec.
  - apply star_lazy_spec.
  - destruct s as [|x s].
    + rewrite elem_of_nil. split; [done |].
      intros (Hs & Hc & _). symmetry in Hs. by apply app_eq_nil_str in Hs as [-> _].
    + destruct (p x) eqn:Hp.
      * rewrite elem_of_cons_char. split.
        -- intros (c' & -> & (-> & Hc & ->)%star_greedy_spec).
           simpl. by rewrite Hp.
        -- intros (Hs & Hne & Hc & ->). destruct c as [|y c]; [done |].
           simpl in *. injection Hs as <- ->. rewrite Hp in Hc.
           exists c. split; [done |]. by apply star_greedy_spec.
      * rewrite elem_of_nil. split; [done |].
        intros (Hs & Hne & Hc & _). destruct c as [|y c]; [done |].
        simpl in *. injection Hs as <- ->. by rewrite Hp in Hc.
  - apply count_exact_spec.
  - rewrite list_elem_of_fmap. split.
    + intros ([c' t' k'] & [= -> -> ->] & (-> & Hm)%IH). simpl. eauto.
    + intros (-> & k' & Hm & ->). exists (Attempt c t k'). split; [done |].
      by apply IH.
  - rewrite list_elem_of_bind. split.
    + intros ([c1 t1 k1] & Ha & (-> & H1)%IH1).
      apply list_elem_of_fmap in Ha as ([c2 t2 k2] & [= -> -> ->] & Ha2).
      simpl in Ha2. apply IH2 in Ha2 as [-> H2].
      rewrite app_assoc_str. split; [done |]. by exists c1, c2, k1, k2.
    + intros (-> & c1 & c2 & k1 & k2 & -> & -> & H1 & H2).
      exists (Attempt c1 (c2 +:+ t) k1). split.
      * apply list_elem_of_fmap. exists (Attempt c2 t k2). split; [done |].
        by apply IH2.
      * apply IH1. by rewrite app_assoc_str.
  - destruct s as [|x s].
    + rewrite list_elem_of_singleton. split.
      * by intros [= -> -> ->].
      * by intros (_ & -> & -> & ->).
    + rewrite elem_of_nil. split; [done |]. intros (Hs & -> & -> & _).
      discriminate.
Qed.

Lemma exec_spec r s a :
  exec r s = Some a →
  s = consumed a +:+ rest a ∧ matches r (consumed a) (rest a) (captures a).
Proof.
  unfold exec. intros Ha%head_Some_elem_of. destruct a as [c t k].
  by apply attempts_spec.
Qed.

Lemma test_spec r s :
  test r s = true ↔ ∃ c t k, s = c +:+ t ∧ matches r c t k.
Proof.
  unfold test. split.
  - destruct (exec r s) as [a|] eqn:Ha; [|discriminate]. intros _.
    apply exec_spec in Ha. by exists (consumed a), (rest a), (captures a).
  - intros (c & t & k & H). apply attempts_spec in H. unfold exec.
    destruct (attempts r s); [by apply elem_of_nil in H | done].
Qed.

(** A pattern that can match a subject in one way only matches it that
    way. *)
Lemma exec_unique r s c t k :
  s = c +:+ t → matches r c t k →
  (∀ c' t' k', s = c' +:+ t' → matches r c' t' k' →
               c' = c ∧ t' = t ∧ k' = k) →
  exec r s = Some (Attempt c t k).
Proof.
  intros Hs Hm Huniq. unfold exec.
  assert (Attempt c t k ∈ attempts r s) as Hin by (by apply attempts_spec).
  destruct (attempts r s) as [|[c' t' k'] l] eqn:Ha; [by apply elem_of_nil in Hin |].
  simpl. assert (Attempt c' t' k' ∈ attempts r s) as Hin'
    by (rewrite Ha; by left).
  apply attempts_spec in Hin' as [Hs' Hm'].
  destruct (Huniq c' t' k' Hs' Hm') as (-> & -> & ->). done.
Qed.

End RegexFacts.

Section NumberFacts.

Lemma decimal_value_toString n : decimal_value (Js.toString n) = Some n.
Proof.
  unfold decimal_value, Js.toString, NilZero.string_of_uint.
  destruct (N.to_uint n) as [| | | | | | | | | |] eqn:Hn.
  - exfalso. destruct n as [|p]; [discriminate |]. simpl in Hn.
    by apply (DecimalPos.Unsigned.to_uint_nonnil p).
  - rewrite NilEmpty.usu, <- Hn. simpl. by rewrite DecimalN.Unsigned.of_to.
  - rewrite NilEmpty.usu, <- Hn. simpl. by rewrite DecimalN.Unsigned.of_to.
  - rewrite NilEmpty.usu, <- Hn. simpl. by rewrite DecimalN.Unsigned.of_to.
  - rewrite NilEmpty.usu, <- Hn. simpl. by rewrite DecimalN.Unsigned.of_to.
  - rewrite NilEmpty.usu, <- Hn. simpl. by rewrite DecimalN.Unsigned.of_to.
  - rewrite NilEmpty.usu, <- Hn. simpl. by rewrite DecimalN.Unsigned.of_to.
  - rewrite NilEmpty.usu, <- Hn. simpl. by rewrite DecimalN.Unsigned.of_to.
  - rewrite NilEmpty.usu, <- Hn. simpl. by rewrite DecimalN.Unsigned.of_to.
  - rewrite NilEmpty.usu, <- Hn. simpl. by rewrite DecimalN.Unsigned.of_to.
  - rewrite NilEmpty.usu, <- Hn. simpl. by rewrite DecimalN.Unsigned.of_to.
Qed.

Lemma decimal_value_zeros k s :
  decimal_value (Js.repeat_char "0" k +:+ s) = decimal_value s.
Proof.
  induction k as [|k IH]; simpl; [done |].
  unfold decimal_value in *. simpl.
  destruct (NilEmpty.uint_of_string (Js.repeat_char "0" k +:+ s)) as [d|];
    destruct (NilEmpty.uint_of_string s) as [d'|]; simpl in *; congruence.
Qed.

Lemma decimal_value_padded n w :
  decimal_value (Js.padStart (Js.toString n) w "0") = Some n.
Proof.
  unfold Js.padStart. by rewrite decimal_value_zeros, decimal_value_toString.
Qed.

Global Instance format_id_inj prefix w : Inj (=) (=) (format_id prefix w).
Proof.
  intros n m H. unfold format_id in H. apply (inj (String.app prefix)) in H.
  assert (Some n = Some m) as [= ->]; [|done].
  by rewrite <- (decimal_value_padded n w), <- (decimal_value_padded m w), H.
Qed.

End NumberFacts.

Section AllocationFacts.
Import Add AddSpec.

Lemma next_free_spec fuel cfg (U : gset string) b :
  ∃ k, k ≤ fuel
    ∧ next_free fuel cfg U b
      = (format_id (prefix cfg) (numberLength cfg) (b + N.of_nat k),
         (b + N.of_nat k + 1)%N)
    ∧ (∀ j, j < k →
         format_id (prefix cfg) (numberLength cfg) (b + N.of_nat j) ∈ U)
    ∧ (k < fuel →
         format_id (prefix cfg) (numberLength cfg) (b + N.of_nat k) ∉ U).
Proof.
  revert b. induction fuel as [|fuel IH]; intros b; simpl.
  - exists 0. rewrite N.add_0_r. split_and!; [done | done | lia | lia].
  - case_decide as Hin.
    + destruct (IH (b + 1)%N) as (k & Hk & Heq & Hall & Hfree).
      exists (S k). replace (b + N.of_nat (S k))%N with (b + 1 + N.of_nat k)%N by lia.
      split_and!; [lia | done | | intros; apply Hfree; lia].
      intros [|j] Hj.
      * by rewrite N.add_0_r.
      * replace (b + N.of_nat (S j))%N with (b + 1 + N.of_nat j)%N by lia.
        apply Hall. lia.
    + exists 0. rewrite N.add_0_r. split_and!; [lia | done | lia | done].
Qed.

(** With as many spare iterations as there are used identifiers the
    loop ends on an identifier that is not used. *)
Lemma next_free_fresh cfg (U : gset string) b :
  ((next_free (size U) cfg U b).1 ∉ U) ∧ (b < (next_free (size U) cfg U b).2)%N.
Proof.
  destruct (next_free_spec (size U) cfg U b) as (k & Hk & -> & Hall & Hfree).
  simpl. split; [|lia].
  destruct (decide (k < size U)) as [Hlt|Hge]; [by apply Hfree |].
  assert (k = size U) as -> by lia. clear Hk Hge Hfree.
  set (f := format_id (prefix cfg) (numberLength cfg)) in *.
  set (l := (fun j => f (b + N.of_nat j)%N) <$> seq 0 (size U)).
  assert (NoDup l) as Hnd.
  { apply NoDup_fmap_2_strong; [|apply NoDup_seq].
    intros i j _ _ Hij. apply (inj f) in Hij.
    apply N.add_cancel_l in Hij. by apply Nat2N.inj in Hij. }
  assert (list_to_set l ⊆ U) as Hsub.
  { intros x Hx. apply elem_of_list_to_set, list_elem_of_fmap in Hx
      as (j & -> & Hj). apply elem_of_seq in Hj. apply Hall. lia. }
  assert (list_to_set l = U) as HU.
  { apply set_subseteq_size_eq; [done |].
    rewrite size_list_to_set by done. unfold l. by rewrite length_fmap, length_seq. }
  intros Hin.
  assert (f (b + N.of_nat (size U))%N ∈ (list_to_set l : gset string)) as Hl
    by (by rewrite HU).
  apply elem_of_list_to_set, list_elem_of_fmap in Hl as (j & Hj & Hjs).
  apply (inj f) in Hj. apply N.add_cancel_l, Nat2N.inj in Hj.
  apply elem_of_seq in Hjs. lia.
Qed.

Lemma cursor_after_app c evs1 evs2 :
  cursor_after c (evs1 ++ evs2) = cursor_after (cursor_after c evs1) evs2.
Proof.
  revert c. induction evs1 as [|[] evs1 IH]; intros c; simpl; auto.
Qed.

Lemma assigned_app evs1 evs2 :
  assigned (evs1 ++ evs2) = assigned evs1 ++ assigned evs2.
Proof.
  induction evs1 as [|[] evs1 IH]; simpl; auto. by rewrite IH.
Qed.

Lemma allocation_chain_app c seen evs1 evs2 :
  allocation_chain c seen (evs1 ++ evs2)
  ↔ allocation_chain c seen evs1
    ∧ allocation_chain (cursor_after c evs1)
                       (list_to_set (assigned evs1) ∪ seen) evs2.
Proof.
  revert c seen. induction evs1 as [|e evs1 IH]; intros c seen; simpl.
  - replace (∅ ∪ seen) with seen by set_solver. tauto.
  - destruct e; simpl; rewrite ?IH; try tauto.
    replace (list_to_set (assigned evs1) ∪ ({[nextId]} ∪ seen))
      with ({[nextId]} ∪ list_to_set (assigned evs1) ∪ seen) by set_solver.
    tauto.
Qed.


(** In an allocation chain no identifier is allocated twice and none
    was seen before the chain started. *)
Lemma allocation_chain_fresh c seen evs :
  allocation_chain c seen evs →
  NoDup (assigned evs) ∧ ∀ i, i ∈ assigned evs → i ∉ seen.
Proof.
  revert c seen. induction evs as [|e evs IH]; intros c seen; simpl.
  - intros _. split; [constructor | intros i Hi; by apply elem_of_nil in Hi].
  - destruct e; eauto.
    intros (_ & _ & Hsub & Hfresh & Hrest).
    apply IH in Hrest as [Hnd Hnot]. split.
    + constructor; [|done]. intros Hin. apply Hnot in Hin. set_solver.
    + intros i [->|Hi]%elem_of_cons; [set_solver |].
      apply Hnot in Hi. set_solver.
Qed.

End AllocationFacts.

Section NodeInduction.

Variable P : node → Prop.
Hypothesis HIdentifier : ∀ name, P (Identifier name).
Hypothesis HMember :
  ∀ object property, P object → P property →
    P (MemberExpression object property).
Hypothesis HCall :
  ∀ callee args, P callee → Forall P args → P (CallExpression callee args).
Hypothesis HString : ∀ value, P (StringLiteral value).
Hypothesis HTemplate :
  ∀ quasis expressions, Forall P expressions →
    P (TemplateLiteral quasis expressions).
Hypothesis HNumeric : ∀ value, P (NumericLiteral value).
Hypothesis HOther : ∀ children, Forall P children → P (OtherNode children).

(** Induction on a tree, with the hypothesis for every child of a
    node. *)
Lemma node_nested_ind : ∀ n, P n.
Proof.
  fix IH 1. intros [name|object property|callee args|value|quasis expressions
                   |value|children].
  - apply HIdentifier.
  - apply HMember; apply IH.
  - apply HCall; [apply IH |].
    induction args as [|a args IHargs]; constructor; [apply IH | exact IHargs].
  - apply HString.
  - apply HTemplate.
    induction expressions as [|a l IHl]; constructor; [apply IH | exact IHl].
  - apply HNumeric.
  - apply HOther.
    induction children as [|a l IHl]; constructor; [apply IH | exact IHl].
Qed.

End NodeInduction.

Section VisitFacts.
Import Add.

(** Whatever holds of every allocation step and composes holds of the
    visit of a tree. *)
Lemma visit_preserves cfg base (R : tstate → tstate → Prop) :
  (∀ st, R st st) →
  (∀ st1 st2 st3, R st1 st2 → R st2 st3 → R st1 st3) →
  (∀ title st newArg st', assign cfg base title st = (newArg, st') → R st st') →
  ∀ n st n' st', visit cfg base n st = (n', st') → R st st'.
Proof.
  intros Hrefl Htrans Hassign.
  assert (∀ l, Forall (fun n => ∀ st n' st',
                         visit cfg base n st = (n', st') → R st st') l →
               ∀ st l' st', traverse_list (visit cfg base) l st = (l', st') →
                            R st st') as Hlist.
  { induction 1 as [|n l Hn _ IH]; intros st l' st'; simpl.
    - intros [= <- <-]. apply Hrefl.
    - destruct (visit cfg base n st) as [n1 st1] eqn:H1.
      destruct (traverse_list (visit cfg base) l st1) as [l2 st2] eqn:H2.
      intros [= <- <-]. eauto. }
  induction n as [name|object property IHo IHp|callee args IHc IHa|value
                 |quasis expressions IHe|value|children IHch]
    using node_nested_ind; intros st n' st'; simpl.
  - intros [= <- <-]. apply Hrefl.
  - destruct (visit cfg base object st) as [o1 st1] eqn:H1.
    destruct (visit cfg base property st1) as [p2 st2] eqn:H2.
    intros [= <- <-]. eauto.
  - destruct (isTest callee).
    + destruct args as [|firstArg others]; [intros [= <- <-]; apply Hrefl |].
      destruct (rewrite_title firstArg) as [title|];
        [|intros [= <- <-]; apply Hrefl].
      destruct (assign cfg base title st) as [newArg st1] eqn:H1.
      destruct (visit cfg base callee st1) as [c2 st2] eqn:H2.
      destruct (traverse_list (visit cfg base) others st2) as [o3 st3] eqn:H3.
      intros [= <- <-]. apply Forall_cons in IHa as [_ IHa]. eauto 6.
    + destruct (visit cfg base callee st) as [c1 st1] eqn:H1.
      destruct (traverse_list (visit cfg base) args st1) as [a2 st2] eqn:H2.
      intros [= <- <-]. eauto.
  - intros [= <- <-]. apply Hrefl.
  - destruct (traverse_list (visit cfg base) expressions st) as [e1 st1] eqn:H1.
    intros [= <- <-]. eauto.
  - intros [= <- <-]. apply Hrefl.
  - destruct (traverse_list (visit cfg base) children st) as [c1 st1] eqn:H1.
    intros [= <- <-]. eauto.
Qed.
End VisitFacts.

Section AddRunFacts.
Import Add AddSpec.

Lemma extends_refl c u l : extends c u l c u l.
Proof.
  exists []. rewrite app_nil_r. simpl. split_and!; [done | done | done | lia |].
  set_solver.
Qed.

Lemma extends_trans c1 u1 l1 c2 u2 l2 c3 u3 l3 :
  extends c1 u1 l1 c2 u2 l2 → extends c2 u2 l2 c3 u3 l3 →
  extends c1 u1 l1 c3 u3 l3.
Proof.
  intros (e1 & -> & Hc1 & Hk1 & Hm1 & ->) (e2 & -> & Hc2 & Hk2 & Hm2 & ->).
  exists (e1 ++ e2). split_and!.
  - by rewrite app_assoc.
  - apply allocation_chain_app. by rewrite Hk1.
  - by rewrite cursor_after_app, Hk1.
  - lia.
  - rewrite assigned_app, list_to_set_app_L. set_solver.
Qed.

Lemma advances_refl base st : advances base st st.
Proof. apply extends_refl. Qed.

Lemma advances_trans base st1 st2 st3 :
  advances base st1 st2 → advances base st2 st3 → advances base st1 st3.
Proof. apply extends_trans. Qed.

Lemma assign_advances cfg base title st newArg st' :
  assign cfg base title st = (newArg, st') → advances base st st'.
Proof.
  unfold assign. destruct (_ && _).
  - intros [= <- <-]. exists [Skipping title]. simpl.
    split_and!; [done | done | done | lia | set_solver].
  - destruct (next_free _ _ _ _) as [nextId newBase] eqn:Hnf.
    intros [= <- <-]. simpl.
    pose proof (next_free_fresh cfg (usedIds st) (base + localInc st)) as [Hf Hlt].
    rewrite Hnf in Hf, Hlt. simpl in Hf, Hlt.
    eexists [Updating _ _ _ _ _]. simpl.
    split_and!; [done | lia | done | done | done | done | lia | lia | set_solver].
Qed.

Lemma visit_advances cfg base n :
  ∀ st n' st', visit cfg base n st = (n', st') → advances base st st'.
Proof.
  apply (visit_preserves cfg base (advances base)).
  - apply advances_refl.
  - apply advances_trans.
  - intros title st newArg st'. apply assign_advances.
Qed.

Lemma transformFile_extends filePath cfg base w w' inc :
  transformFile filePath cfg base w = Ok (w', inc) →
  extends base (used w) (console w) (base + inc) (used w') (console w').
Proof.
  unfold transformFile. destruct (readAndParse _ _) as [ast|]; [|discriminate].
  destruct (visit cfg base ast _) as [ast' st] eqn:Hv.
  apply visit_advances in Hv as (evs & Hl & Hc & Hk & Hm & Hu). simpl in *.
  rewrite N.add_0_r in *.
  assert (∀ e, (match e with Updating _ _ _ _ _ => False | _ => True end) →
    extends base (used w) (console w) (base + localInc st) (usedIds st)
            (console w ++ log st ++ [e])) as Hend.
  { intros e He. exists (log st ++ [e]).
    rewrite Hl, allocation_chain_app, cursor_after_app, assigned_app.
    destruct e; try done; simpl; rewrite app_nil_r; split_and!; done. }
  destruct (fileChanged st); intros [= <- <-]; simpl; by apply Hend.
Qed.

Lemma updateAll_extends cfg paths :
  ∀ totalInc w w' r,
    updateAll cfg paths totalInc w = (w', r) →
    ∃ c', extends (baseNumber cfg + totalInc) (used w) (console w)
                  c' (used w') (console w').
Proof.
  induction paths as [|p paths IH]; intros totalInc w w' r; simpl.
  - intros [= <- <-]. eexists. apply extends_refl.
  - destruct (transformFile p cfg _ w) as [[w1 inc]|msg] eqn:Ht.
    + intros Hrest. apply transformFile_extends in Ht.
      apply IH in Hrest as [c' Hrest]. exists c'.
      eapply extends_trans; [exact Ht |].
      by rewrite <- N.add_assoc.
    + intros [= <- <-]. eexists. apply extends_refl.
Qed.

(** A run that does not reach the rewrite phase (the seed is rejected,
    a file cannot be read during the scan, or the registry holds a
    duplicate) leaves the files, the console and the used-id set as
    they were at the start. *)
Lemma add_stopped_before_rewrite opts paths fs :
  match parseBaseId (baseId opts) with
  | Throw _ => True
  | Ok (prefix, b, w) =>
      match scanAll fs (Config (overwriteExistingIds opts) prefix b w)
                    paths with
      | Throw _ => True
      | Ok found => duplicates (idOccurrences found) ≠ ∅
      end
  end →
  final (main opts paths fs) = World fs [] [] ∅.
Proof.
  unfold main. destruct (parseBaseId (baseId opts)) as [[[prefix b] w]|];
    [|done].
  destruct paths as [|p paths]; [done |].
  destruct (scanAll _ _ _) as [found|]; [|done].
  intros Hdup. by rewrite decide_False.
Qed.

(** C9: throughout a run of add that reaches the rewrite phase the
    cursor never moves backwards, every identifier found by the scan or
    allocated so far is in the used-id set at each later allocation and
    at the end of the run, and no identifier is allocated that was
    found or allocated before. *)
Theorem add_run_cursor_and_used_ids opts paths fs prefix b w found :
  parseBaseId (baseId opts) = Ok (prefix, b, w) →
  scanAll fs (Config (overwriteExistingIds opts) prefix b w) paths = Ok found →
  duplicates (idOccurrences found) = ∅ →
  let o := main opts paths fs in
  let evs := console (final o) in
  allocation_chain b (dom (idOccurrences found)) evs
  ∧ NoDup (assigned evs)
  ∧ (∀ i, i ∈ assigned evs → i ∉ dom (idOccurrences found))
  ∧ used (final o) = list_to_set (assigned evs) ∪ dom (idOccurrences found).
Proof.
  intros Hseed Hscan Hdup. unfold main. rewrite Hseed.
  destruct paths as [|p paths].
  - simpl in Hscan. injection Hscan as <-. simpl.
    split_and!; [done | constructor | by intros i ?%elem_of_nil | set_solver].
  - rewrite Hscan. rewrite decide_True by done.
    destruct (updateAll _ _ _ _) as [wf r] eqn:Hu.
    apply updateAll_extends in Hu as (c' & evs & Hl & Hc & _ & _ & Hused).
    simpl in *. rewrite N.add_0_r in Hc.
    assert (console (final (match r with
                            | Some msg => Outcome wf (Failed msg)
                            | None => Outcome wf Completed end)) = evs
            ∧ used (final (match r with
                            | Some msg => Outcome wf (Failed msg)
                            | None => Outcome wf Completed end)) = used wf)
      as [-> ->] by (by destruct r).
    pose proof (allocation_chain_fresh _ _ _ Hc) as [Hnd Hfresh].
    split_and!; done.
Qed.

Lemma add_run_cursor_and_used_ids_witness :
  let opts := Options "C001" false in
  let paths := ["a.test.js"; "b.test.js"] in
  let found := [Occurrence "C002" "C002: kept" "a.test.js"] in
  let evs := console (final (main opts paths Fixtures.two_files)) in
  assigned evs = ["C001"; "C003"]
  ∧ allocation_chain 1 (dom (idOccurrences found)) evs
  ∧ NoDup (assigned evs)
  ∧ (∀ i, i ∈ assigned evs → i ∉ dom (idOccurrences found))
  ∧ used (final (main opts paths Fixtures.two_files))
    = list_to_set (assigned evs) ∪ dom (idOccurrences found).
Proof.
  split; [reflexivity |].
  apply (add_run_cursor_and_used_ids
           (Options "C001" false) ["a.test.js"; "b.test.js"]
           Fixtures.two_files "C" 1 3
           [Occurrence "C002" "C002: kept" "a.test.js"]);
    reflexivity.
Defined.

End AddRunFacts.

Section MatcherFacts.
Import Regex RegexSpec TitleSpec.

(** Closes the goal that a text matches a simple pattern, grouped or
    not. *)
Ltac simple_match :=
  lazymatch goal with
  | |- ∃ _, _ => eexists; split; [|reflexivity]
  | |- _ => idtac
  end;
  repeat split; (done || reflexivity).

(** Both directions of the characterisation of a pattern made of a
    prefix, a run of digits, a colon and white space. *)
Ltac split_title p :=
  rewrite test_spec; simpl; split;
  [ intros (c & t & k & -> & H); decompose_matches;
    eexists _, _, t; split_and!; cycle 1;
    [(eassumption || reflexivity)..
    | rewrite !app_assoc_str; reflexivity]
  | intros (ds & sp & rest & -> & ? & ? & ?);
    exists (p +:+ ds +:+ ":" +:+ sp), rest; eexists;
    split; [rewrite !app_assoc_str; reflexivity |];
    exists p, (ds +:+ ":" +:+ sp); do 2 eexists;
    split; [reflexivity |]; split; [reflexivity |]; split; [simple_match |];
    exists ds, (":" +:+ sp); do 2 eexists;
    split; [reflexivity |]; split; [reflexivity |]; split; [simple_match |];
    exists ":", sp; do 2 eexists;
    repeat split; (done || reflexivity) ].

Lemma add_pattern_spec cfg title :
  test (Add.idRegex cfg) title = true
  ↔ begins_with_id (Add.prefix cfg) (Add.numberLength cfg) title.
Proof. unfold begins_with_id, Add.idRegex. split_title (Add.prefix cfg). Qed.

Lemma cleanFile_pattern_spec prefix width title :
  test (CleanFile.idRegex prefix width) title = true
  ↔ begins_with_id prefix width title.
Proof. unfold begins_with_id, CleanFile.idRegex. split_title prefix. Qed.

Lemma number_pattern_spec prefix title :
  test (Compare.idRegex prefix) title = true
  ↔ begins_with_number prefix title.
Proof. unfold begins_with_number, Compare.idRegex. split_title prefix. Qed.

(** No identifier pattern of add matches the empty title. *)
Lemma add_idRegex_empty cfg : exec (Add.idRegex cfg) "" = None.
Proof.
  destruct (exec (Add.idRegex cfg) "") as [a|] eqn:He; [|done].
  assert (test (Add.idRegex cfg) "" = true) as Ht by (unfold test; by rewrite He).
  apply add_pattern_spec in Ht.
  destruct Ht as (ds & sp & rest & Heq & _). exfalso.
  symmetry in Heq. apply app_eq_nil_str in Heq as [_ Heq].
  apply app_eq_nil_str in Heq as [_ Heq]. discriminate.
Qed.

End MatcherFacts.

Section SeedFacts.
Import Regex RegexSpec SeedSpec.


Lemma exec_none r s :
  (∀ c t k, s = c +:+ t → ¬ matches r c t k) → exec r s = None.
Proof.
  intros Hno. destruct (exec r s) as [a|] eqn:Ha; [|done].
  apply exec_spec in Ha as [Hs Hm]. by destruct (Hno _ _ _ Hs Hm).
Qed.


Lemma parseInt_digits ds :
  ds ≠ "" → Js.all_chars Js.is_digit ds = true →
  Js.parseInt ds = Some (Js.digits_value ds 0).
Proof.
  intros Hne Hd. unfold Js.parseInt.
  assert (Js.take_while Js.is_digit ds = ds) as ->.
  { clear Hne. induction ds as [|c ds IH]; simpl in *; [done |].
    apply andb_prop in Hd as [-> Hd]. by rewrite IH. }
  by destruct ds.
Qed.



(** X5: parseBaseId of add.js accepts no other seed: a seed it accepts is
    made of letters followed by one or more digits. *)
Theorem parseBaseId_only_letters_digits seed r :
  Add.parseBaseId seed = Ok r →
  ∃ p ds, seed = p +:+ ds ∧ Js.all_chars Js.is_alpha p = true
          ∧ ds ≠ "" ∧ Js.all_chars Js.is_digit ds = true.
Proof.
  unfold Add.parseBaseId.
  destruct (exec Add.baseIdRegex seed) as [a|] eqn:Ha; [|discriminate].
  intros _. apply exec_spec in Ha as [Hs H]. simpl in H.
  destruct H as (x & c2 & k1 & k2 & Hc & Hk & (k1' & [Hx _] & _)
                 & (x3 & c4 & k3 & k4 & -> & _ & (k3' & (Hne & Hd & _) & _)
                    & (-> & Ht & _))).
  subst seed.
  exists x, x3. split_and!; try done.
  by rewrite Hc, Ht, !app_nil_r_str.
Qed.

(** The pattern after the prefix group of [getIdPrefix]: a captured run
    of one or more digits up to the end. *)
Lemma digits_to_end_exec s :
  exec (Cat (Group (Plus Js.is_digit)) Eos) s
  = if bool_decide (s ≠ "") && Js.all_chars Js.is_digit s
    then Some (Attempt s "" [s]) else None.
Proof.
  destruct (bool_decide (s ≠ "") && Js.all_chars Js.is_digit s) eqn:Hs.
  - apply andb_prop in Hs as [Hne%bool_decide_eq_true Hd].
    apply exec_unique.
    + by rewrite app_nil_r_str.
    + simpl. exists s, "", [s], []. rewrite app_nil_r_str.
      split; [done |]. split; [done |]. split; [by exists [] | done].
    + simpl. intros c' t' k' -> (c1 & c2 & k1 & k2 & -> & ->
                                 & (k & (_ & _ & ->) & ->) & (-> & -> & ->)).
      by rewrite !app_nil_r_str.
  - apply exec_none. simpl.
    intros c t k -> (c1 & c2 & k1 & k2 & -> & -> & (k' & (Hne & Hd & _) & _)
                     & (-> & -> & _)).
    rewrite !app_nil_r_str in Hs. rewrite Hd, andb_true_r in Hs.
    by apply bool_decide_eq_false in Hs.
Qed.

Lemma star_lazy_no_captures p s a :
  a ∈ star_lazy p s → captures a = [].
Proof. destruct a as [c t k]. by intros (_ & _ & ->)%star_lazy_spec. Qed.

(** One more character under the lazy prefix group: the attempts with
    the empty prefix come first, then those of the rest of the subject
    with the character put in front. *)
Lemma lazy_prefix_unfold p r x s :
  attempts (Cat (Group (LazyStar p)) r) (String x s)
  = ((fun a => Attempt (consumed a) (rest a) ("" :: captures a))
       <$> attempts r (String x s))
    ++ (if p x then shift x <$> attempts (Cat (Group (LazyStar p)) r) s
        else []).
Proof.
  set (G := fun a => Attempt (consumed a) (rest a) (captures a ++ [consumed a])).
  set (F := fun a1 : attempt =>
              (fun a2 => Attempt (consumed a1 +:+ consumed a2) (rest a2)
                                 (captures a1 ++ captures a2))
                <$> attempts r (rest a1)).
  change (attempts (Cat (Group (LazyStar p)) r) (String x s))
    with ((G <$> star_lazy p (String x s)) ≫= F).
  change (attempts (Cat (Group (LazyStar p)) r) s)
    with ((G <$> star_lazy p s) ≫= F).
  change (star_lazy p (String x s))
    with (if p x then Attempt "" (String x s) [] :: (cons_char x <$> star_lazy p s)
          else [Attempt "" (String x s) []]).
  destruct (p x).
  - rewrite fmap_cons, bind_cons. f_equal.
    pose proof (star_lazy_no_captures p s) as Hk.
    induction (star_lazy p s) as [|a l IH]; [done |].
    rewrite !fmap_cons, !bind_cons, fmap_app, IH.
    2:{ intros b Hb. apply Hk. by right. }
    f_equal. unfold F, G, shift. simpl. rewrite <- list_fmap_compose.
    apply list_fmap_ext. intros _ b _. simpl.
    rewrite (Hk a) by (by left). done.
  - rewrite fmap_cons, bind_cons. simpl. by rewrite !app_nil_r.
Qed.

Lemma ends_in_digit_not_all_digits s :
  s ≠ "" → ends_in_digit s = false → Js.all_chars Js.is_digit s = false.
Proof.
  induction s as [|c s IH]; [done |]. intros _ He. simpl in *.
  destruct s as [|c' s]; [by rewrite He |].
  rewrite IH by done. by destruct (Js.is_digit c).
Qed.

Lemma ends_in_digit_app a b :
  b ≠ "" → ends_in_digit (a +:+ b) = ends_in_digit b.
Proof.
  intros Hb. induction a as [|c a IH]; [done |]. simpl.
  destruct (a +:+ b) eqn:Hab; [|done].
  apply app_eq_nil_str in Hab as [_ ->]. done.
Qed.

Lemma all_digits_ends_in_digit s :
  s ≠ "" → Js.all_chars Js.is_digit s = true → ends_in_digit s = true.
Proof.
  induction s as [|c s IH]; [done |]. intros _ Hd. simpl in *.
  apply andb_prop in Hd as [Hc Hd]. destruct s; [done |]. by apply IH.
Qed.

Lemma lazy_prefix_exec p r x s :
  exec (Cat (Group (LazyStar p)) r) (String x s)
  = match exec r (String x s) with
    | Some a => Some (Attempt (consumed a) (rest a) ("" :: captures a))
    | None => if p x then shift x <$> exec (Cat (Group (LazyStar p)) r) s
              else None
    end.
Proof.
  unfold exec. rewrite lazy_prefix_unfold.
  destruct (attempts r (String x s)) as [|a l]; [|done].
  rewrite fmap_nil, app_nil_l. destruct (p x); [|done].
  by destruct (attempts (Cat (Group (LazyStar p)) r) s).
Qed.

Lemma getIdPrefix_regex_exec p ds :
  Js.all_chars Js.is_dot p = true → ends_in_digit p = false →
  ds ≠ "" → Js.all_chars Js.is_digit ds = true →
  exec CleanTransform.baseIdRegex (p +:+ ds)
  = Some (Attempt (p +:+ ds) "" [p; ds]).
Proof.
  intros Hp He Hne Hd. unfold CleanTransform.baseIdRegex.
  induction p as [|x p IH].
  - destruct ds as [|d ds]; [done |].
    change ("" +:+ String d ds) with (String d ds).
    rewrite lazy_prefix_exec, digits_to_end_exec, Hd.
    by rewrite bool_decide_eq_true_2.
  - change (String x p +:+ ds) with (String x (p +:+ ds)).
    rewrite lazy_prefix_exec, digits_to_end_exec.
    assert (Js.all_chars Js.is_digit (String x (p +:+ ds)) = false) as ->.
    { change (String x (p +:+ ds)) with (String x p +:+ ds).
      rewrite all_chars_app, (ends_in_digit_not_all_digits (String x p)); done. }
    rewrite andb_false_r.
    change (Js.all_chars Js.is_dot (String x p))
      with (Js.is_dot x && Js.all_chars Js.is_dot p) in Hp.
    apply andb_prop in Hp as [-> Hp].
    rewrite IH; [done | done |]. by destruct p.
Qed.

(** X6: getIdPrefix splits a seed at the start of its final run of digits:
    the prefix is everything before the run, the width is the length of
    the run. *)
Theorem getIdPrefix_final_digit_run p ds :
  Js.all_chars Js.is_dot p = true → ends_in_digit p = false →
  ds ≠ "" → Js.all_chars Js.is_digit ds = true →
  Compare.getIdPrefix (p +:+ ds) = Ok (p, String.length ds)
  ∧ CleanTransform.getIdPrefix (p +:+ ds) = Ok p.
Proof.
  intros Hp He Hne Hd.
  unfold Compare.getIdPrefix, CleanTransform.getIdPrefix.
  by rewrite getIdPrefix_regex_exec.
Qed.

(** X7: getIdPrefix of compare throws on a seed that does not end in a
    digit. *)
Theorem getIdPrefix_without_final_digit seed :
  ends_in_digit seed = false →
  Compare.getIdPrefix seed
  = Throw "baseId must end with a number (e.g., e2e-001, test99)".
Proof.
  intros He. unfold Compare.getIdPrefix. rewrite exec_none; [done |]. simpl.
  intros c t k -> (c1 & c2 & k1 & k2 & -> & _ & _
                   & (c3 & c4 & k3 & k4 & -> & _ & (k' & (Hne & Hd & _) & _)
                      & (-> & -> & _))).
  rewrite !app_nil_r_str, ends_in_digit_app in He by done.
  by rewrite all_digits_ends_in_digit in He.
Qed.

End SeedFacts.

Section TrimFacts.

Lemma rev_string_app a b :
  Js.rev_string (a +:+ b) = Js.rev_string b +:+ Js.rev_string a.
Proof.
  induction a as [|x a IH]; simpl; [by rewrite app_nil_r_str |].
  by rewrite IH, app_assoc_str.
Qed.

Lemma rev_string_involutive s : Js.rev_string (Js.rev_string s) = s.
Proof.
  induction s as [|x s IH]; simpl; [done |]. by rewrite rev_string_app, IH.
Qed.










End TrimFacts.

Section DigitFacts.







End DigitFacts.

Section TitleFacts.
Import Regex RegexSpec TitleSpec SeedSpec.












End TitleFacts.

Section ClaimC5.
Import Regex TitleSpec.

(** C5, as amended: for a prefix without pattern syntax in it, the
    matcher of add and of cleanFile matches a title exactly when the
    title begins with the prefix, exactly [width] digits, a colon and
    optional white space; the matcher of compare and of the clean
    command's transformFile matches exactly when the title begins with
    the prefix, one or more digits (however many the seed has), a colon
    and optional white space. The hypothesis marks the prefixes for
    which splicing into a pattern source means literal text, which is
    how the matchers above read the prefix. *)
Theorem id_matchers_characterised prefix width overwrite baseNumber title :
  literal_source prefix = true →
  (test (Add.idRegex (Add.Config overwrite prefix baseNumber width)) title
     = true ↔ begins_with_id prefix width title)
  ∧ (test (CleanFile.idRegex prefix width) title = true
     ↔ begins_with_id prefix width title)
  ∧ (test (CleanTransform.idRegex prefix) title = true
     ↔ begins_with_number prefix title)
  ∧ (test (Compare.idRegex prefix) title = true
     ↔ begins_with_number prefix title).
Proof.
  intros _. split_and!.
  - apply (add_pattern_spec (Add.Config overwrite prefix baseNumber width)).
  - apply cleanFile_pattern_spec.
  - apply number_pattern_spec.
  - apply number_pattern_spec.
Qed.

Lemma id_matchers_characterised_witness :
  literal_source "e2e-" = true
  ∧ (test (Compare.idRegex "e2e-") "e2e-0042: logs in" = true
     ↔ begins_with_number "e2e-" "e2e-0042: logs in").
Proof.
  split; [reflexivity |].
  apply (id_matchers_characterised "e2e-" 3 false 1 "e2e-0042: logs in").
  reflexivity.
Defined.

(** C5, as stated, fails: with seed e2e-001 (prefix e2e-, width 3) the
    matcher of compare accepts a title whose identifier has one digit. *)
Lemma compare_matcher_ignores_width :
  Compare.getIdPrefix "e2e-001" = Ok ("e2e-", 3)
  ∧ ¬ (test (Compare.idRegex "e2e-") "e2e-1: logs in" = true
       ↔ begins_with_id "e2e-" 3 "e2e-1: logs in").
Proof.
  split; [reflexivity |]. intros [H _].
  destruct (H eq_refl) as (ds & sp & rest & Heq & Hlen & Hd & _).
  destruct ds as [|d1 [|d2 [|d3 [|d4 ds]]]]; discriminate.
Qed.

End ClaimC5.

Section ClaimC10.
Import Add.

Lemma isTest_Identifier callee :
  isTest callee = true → ∃ name, callee = Identifier name.
Proof. destruct callee; try discriminate. eauto. Qed.

Lemma rewrite_title_None_scan_title firstArg :
  rewrite_title firstArg = None → scan_title firstArg = "".
Proof.
  destruct firstArg as [| | | |q [|e es]| |]; try done.
Qed.

(** C10: when a call declares a test and its first argument is absent
    or is not an eligible literal, the rewrite visitor of add returns
    the call as it is with its state unchanged, nothing below it being
    visited, whereas the scan visitor records whatever it finds in the
    arguments. *)
Theorem add_rewrite_skips_what_scan_visits cfg base filePath callee args st :
  isTest callee = true →
  (∀ firstArg, head args = Some firstArg → rewrite_title firstArg = None) →
  visit cfg base (CallExpression callee args) st
    = (CallExpression callee args, st)
  ∧ scan cfg filePath (CallExpression callee args)
    = flat_map (scan cfg filePath) args.
Proof.
  intros Htest Harg. simpl. rewrite Htest.
  destruct args as [|firstArg others]; [done |].
  specialize (Harg firstArg eq_refl). rewrite Harg. split; [done |].
  apply isTest_Identifier in Htest as [name ->].
  rewrite (rewrite_title_None_scan_title _ Harg).
  unfold found. by rewrite add_idRegex_empty.
Qed.

Lemma add_rewrite_skips_what_scan_visits_witness :
  let cfg := Config false "C" 1 3 in
  let st := TState ∅ 0 false [] in
  let args :=
    [Identifier "name";
     OtherNode [OtherNode [OtherNode
       [CallExpression (Identifier "it")
                       [StringLiteral "C001: inner"; OtherNode []]]]]] in
  isTest (Identifier "it") = true
  ∧ rewrite_title (Identifier "name") = None
  ∧ (visit cfg 1 Fixtures.nested_in_computed st
       = (Fixtures.nested_in_computed, st)
     ∧ scan cfg "a.test.js" Fixtures.nested_in_computed
       = flat_map (scan cfg "a.test.js") args)
  ∧ scan cfg "a.test.js" Fixtures.nested_in_computed
    = [Occurrence "C001" "C001: inner" "a.test.js"].
Proof.
  split; [reflexivity |]. split; [reflexivity |].
  split; [|reflexivity].
  apply (add_rewrite_skips_what_scan_visits
           (Config false "C" 1 3) 1 "a.test.js" (Identifier "it")
           [Identifier "name";
            OtherNode [OtherNode [OtherNode
              [CallExpression (Identifier "it")
                              [StringLiteral "C001: inner"; OtherNode []]]]]]
           (TState ∅ 0 false [])).
  - reflexivity.
  - intros firstArg [= <-]. reflexivity.
Defined.

End ClaimC10.

Section GapFacts.
Import Add AddSpec GapSpec.











End GapFacts.

Section CompareFacts.
Import Compare CompareSpec.

Lemma distinct_elem_of (l : list N) x : x ∈ distinct l ↔ x ∈ l.
Proof.
  unfold distinct.
  assert (∀ acc, x ∈ foldl (fun acc x => if bool_decide (x ∈ acc) then acc
                                          else acc ++ [x]) acc l
                 ↔ x ∈ acc ∨ x ∈ l) as H.
  { induction l as [|y l IH]; intros acc; simpl.
    - rewrite elem_of_nil. tauto.
    - rewrite IH, elem_of_cons. case_bool_decide as Hy.
      + split; [tauto |]. intros [?|[->|?]]; auto.
      + rewrite elem_of_app, list_elem_of_singleton. tauto. }
  rewrite H, elem_of_nil. tauto.
Qed.

Lemma insert_sorted_elem_of x y l :
  y ∈ insert_sorted x l ↔ y = x ∨ y ∈ l.
Proof.
  induction l as [|z l IH]; simpl.
  - rewrite list_elem_of_singleton, elem_of_nil. tauto.
  - destruct (x <=? z)%N; rewrite !elem_of_cons, ?IH; tauto.
Qed.

Lemma sort_ascending_elem_of l y : y ∈ sort_ascending l ↔ y ∈ l.
Proof.
  induction l as [|x l IH]; simpl; [done |].
  by rewrite insert_sorted_elem_of, IH, elem_of_cons.
Qed.

Lemma ascending_cons x l :
  ascending (x :: l) ↔ (∀ y, y ∈ l → (x ≤ y)%N) ∧ ascending l.
Proof.
  unfold ascending. split.
  - intros H. split.
    + intros y [j Hj]%list_elem_of_lookup.
      apply (H 0 (S j) x y); [done | done | lia].
    + intros i j a b Ha Hb Hij. apply (H (S i) (S j)); [done | done | lia].
  - intros [Hx Hl] [|i] [|j] a b Ha Hb Hij; simpl in *.
    + injection Ha as <-. injection Hb as <-. lia.
    + injection Ha as <-. apply Hx. apply list_elem_of_lookup. eauto.
    + lia.
    + apply (Hl i j); [done | done | lia].
Qed.

Lemma insert_sorted_ascending x l :
  ascending l → ascending (insert_sorted x l).
Proof.
  induction l as [|z l IH]; simpl; intros Hl.
  - apply ascending_cons. split; [by intros y ?%elem_of_nil | done].
  - destruct (N.leb_spec x z) as [Hle|Hgt].
    + apply ascending_cons. split; [|done].
      apply ascending_cons in Hl as [Hz _].
      intros y [->|Hy]%elem_of_cons; [done |]. specialize (Hz y Hy). lia.
    + apply ascending_cons in Hl as [Hz Hl]. apply ascending_cons. split.
      * intros y [->|Hy]%insert_sorted_elem_of; [lia | by apply Hz].
      * by apply IH.
Qed.

Lemma sort_ascending_ascending l : ascending (sort_ascending l).
Proof.
  induction l as [|x l IH]; simpl.
  - intros i j x y Hx. by rewrite lookup_nil in Hx.
  - by apply insert_sorted_ascending.
Qed.

Lemma last_ascending l m :
  ascending l → last l = Some m → m ∈ l ∧ ∀ y, y ∈ l → (y ≤ m)%N.
Proof.
  intros Hasc Hlast. rewrite last_lookup in Hlast. split.
  - apply list_elem_of_lookup. eauto.
  - intros y [i Hi]%list_elem_of_lookup.
    apply (Hasc i (pred (length l)) y m); [done | done |].
    apply lookup_lt_Some in Hi. lia.
Qed.

Lemma range_elem_of from to i :
  i ∈ range from to ↔ (from ≤ i ≤ to)%N.
Proof.
  unfold range. rewrite list_elem_of_fmap. split.
  - intros (k & -> & Hk). apply elem_of_seq in Hk. lia.
  - intros Hi. exists (N.to_nat (i - from)). split; [lia |].
    apply elem_of_seq. lia.
Qed.

(** X8: What [compareIds] computes for a base: the integers from the base
    to the largest number found that are not among the numbers found;
    nothing when no number was found. *)
Theorem compareIds_missing idObjects baseNumber i :
  i ∈ missing (compareIds idObjects baseNumber)
  ↔ (baseNumber ≤ i)%N
    ∧ (i ∉ number <$> idObjects)
    ∧ ∃ m, m ∈ (number <$> idObjects)
           ∧ (∀ y, y ∈ (number <$> idObjects) → (y ≤ m)%N) ∧ (i ≤ m)%N.
Proof.
  unfold compareIds. simpl.
  set (numbers := number <$> idObjects).
  set (sorted := sort_ascending (distinct numbers)).
  assert (∀ y, y ∈ sorted ↔ y ∈ numbers) as Hmem.
  { intros y. unfold sorted. by rewrite sort_ascending_elem_of, distinct_elem_of. }
  destruct (last sorted) as [bound|] eqn:Hlast.
  - apply last_ascending in Hlast as [Hin Hmax];
      [|apply sort_ascending_ascending].
    rewrite list_elem_of_filter, range_elem_of, Hmem. split.
    + intros [Hnot [Hlo Hhi]]. split_and!; [done | done |].
      exists bound. split_and!; [by apply Hmem | | done].
      intros y Hy. apply Hmax. by apply Hmem.
    + intros (Hlo & Hnot & m & Hm & Hmmax & Him). split_and!; [done | done |].
      etrans; [exact Him |]. apply Hmax. by apply Hmem.
  - apply last_None in Hlast. split; [by intros ?%elem_of_nil |].
    intros (_ & _ & m & Hm & _). apply Hmem in Hm. rewrite Hlast in Hm.
    by apply elem_of_nil in Hm.
Qed.

Lemma compareIds_nothing_found baseNumber :
  missing (compareIds [] baseNumber) = [].
Proof. reflexivity. Qed.

End CompareFacts.

Section RegistryFacts.
Import Add RegistrySpec.

Lemma bearers_cons i o found :
  bearers i (o :: found)
  = if decide (id o = i) then (file o, title o) :: bearers i found
    else bearers i found.
Proof. unfold bearers. rewrite filter_cons. by case_decide. Qed.

Lemma foldl_record_lookup found :
  ∀ reg i,
    foldl record_occurrence reg found !! i
    = if decide (bearers i found = []) then reg !! i
      else Some (default [] (reg !! i) ++ bearers i found).
Proof.
  induction found as [|o found IH]; intros reg i; simpl; [done |].
  rewrite IH, bearers_cons. unfold record_occurrence.
  destruct (decide (id o = i)) as [->|Hne].
  - rewrite lookup_insert_eq. simpl.
    case_decide as Hb; [by rewrite Hb | by rewrite <- app_assoc].
  - by rewrite lookup_insert_ne.
Qed.

(** The registry binds an identifier to the pairs that bear it, and
    binds nothing else. *)
Lemma idOccurrences_lookup found i :
  idOccurrences found !! i
  = if decide (bearers i found = []) then None else Some (bearers i found).
Proof. unfold idOccurrences. by rewrite foldl_record_lookup, lookup_empty. Qed.

Lemma duplicates_lookup found i :
  duplicates (idOccurrences found) !! i
  = if decide (1 < length (bearers i found)) then Some (bearers i found)
    else None.
Proof.
  unfold duplicates. rewrite map_lookup_filter, idOccurrences_lookup.
  destruct (decide (bearers i found = [])) as [->|Hne]; simpl; [done |].
  rewrite option_guard_decide. by case_decide.
Qed.

(** X1: When the scan of add finds an identifier borne by more than one
    occurrence, main of add.js ends blocked: the duplicates it prints
    are exactly the identifiers borne more than once, each with all the
    pairs that bear it, and no file is written or changed. *)
Theorem add_blocked_by_duplicates opts paths fs prefix b w found i :
  parseBaseId (baseId opts) = Ok (prefix, b, w) →
  scanAll fs (Config (overwriteExistingIds opts) prefix b w) paths = Ok found →
  1 < length (bearers i found) →
  ∃ dups,
    main opts paths fs = Outcome (World fs [] [] ∅) (Blocked dups)
    ∧ ∀ j, dups !! j = if decide (1 < length (bearers j found))
                       then Some (bearers j found) else None.
Proof.
  intros Hseed Hscan Hdup. exists (duplicates (idOccurrences found)).
  split; [|intros j; apply duplicates_lookup].
  unfold main. rewrite Hseed.
  destruct paths as [|p paths].
  { simpl in Hscan. injection Hscan as <-. simpl in Hdup. lia. }
  rewrite Hscan. rewrite decide_False; [done |].
  intros Hempty.
  assert (duplicates (idOccurrences found) !! i = None) as Hnone
    by (by rewrite Hempty, lookup_empty).
  rewrite duplicates_lookup, decide_True in Hnone by done. discriminate.
Qed.

End RegistryFacts.

Section TreeFacts.
Import Regex Add AddSpec TreeSpec TitleSpec.

Lemma test_exec r s : test r s = bool_decide (is_Some (exec r s)).
Proof. unfold test. destruct (exec r s); by rewrite ?bool_decide_eq_true_2 by eauto. Qed.













(** Induction on a visit of the rewrite phase: a relation between a
    tree with the state before and the tree with the state after holds
    of every visit if it holds of the leaves and of the calls the
    visitor returns from, and follows the visitor through the other
    nodes. *)
Section VisitInduction.

Variables (cfg : config) (base : N).
Variable R : node → tstate → node → tstate → Prop.
Variable RL : list node → tstate → list node → tstate → Prop.

Hypothesis Hnil : ∀ st, RL [] st [] st.
Hypothesis Hcons :
  ∀ x l st x' st1 l' st2,
    visit cfg base x st = (x', st1) →
    traverse_list (visit cfg base) l st1 = (l', st2) →
    R x st x' st1 → RL l st1 l' st2 → RL (x :: l) st (x' :: l') st2.
Hypothesis Hidentifier : ∀ name st, R (Identifier name) st (Identifier name) st.
Hypothesis Hstring :
  ∀ value st, R (StringLiteral value) st (StringLiteral value) st.
Hypothesis Hnumeric :
  ∀ value st, R (NumericLiteral value) st (NumericLiteral value) st.
Hypothesis Hmember :
  ∀ o p st o' st1 p' st2,
    visit cfg base o st = (o', st1) → visit cfg base p st1 = (p', st2) →
    R o st o' st1 → R p st1 p' st2 →
    R (MemberExpression o p) st (MemberExpression o' p') st2.
Hypothesis Htemplate :
  ∀ q es st es' st1,
    traverse_list (visit cfg base) es st = (es', st1) →
    RL es st es' st1 → R (TemplateLiteral q es) st (TemplateLiteral q es') st1.
Hypothesis Hother :
  ∀ cs st cs' st1,
    traverse_list (visit cfg base) cs st = (cs', st1) →
    RL cs st cs' st1 → R (OtherNode cs) st (OtherNode cs') st1.
Hypothesis Hplain_call :
  ∀ callee args st c' st1 a' st2,
    isTest callee = false →
    visit cfg base callee st = (c', st1) →
    traverse_list (visit cfg base) args st1 = (a', st2) →
    R callee st c' st1 → RL args st1 a' st2 →
    R (CallExpression callee args) st (CallExpression c' a') st2.
Hypothesis Hno_argument :
  ∀ callee st,
    isTest callee = true →
    R (CallExpression callee []) st (CallExpression callee []) st.
Hypothesis Hnot_eligible :
  ∀ callee firstArg others st,
    isTest callee = true → rewrite_title firstArg = None →
    R (CallExpression callee (firstArg :: others)) st
      (CallExpression callee (firstArg :: others)) st.
Hypothesis Heligible :
  ∀ callee firstArg others title st newArg st1 others' st2,
    isTest callee = true → rewrite_title firstArg = Some title →
    assign cfg base title st = (newArg, st1) →
    traverse_list (visit cfg base) others st1 = (others', st2) →
    RL others st1 others' st2 →
    R (CallExpression callee (firstArg :: others)) st
      (CallExpression callee (default firstArg newArg :: others')) st2.


End VisitInduction.





Lemma quiet_assigned evs : Forall quiet evs → assigned evs = [].
Proof. induction 1 as [|[] evs H _ IH]; done. Qed.

End TreeFacts.

Section RewriteScanFacts.
Import Regex Add AddSpec TreeSpec TitleSpec RegistrySpec.






End RewriteScanFacts.

Section RepeatedRunFacts.
Import Regex Add AddSpec TreeSpec TitleSpec RegistrySpec.






Lemma scanAll_ext fs fs' cfg paths :
  (∀ q, q ∈ paths → fs' !! q = fs !! q) →
  scanAll fs' cfg paths = scanAll fs cfg paths.
Proof.
  induction paths as [|q paths IH]; [done |]. intros H. simpl.
  unfold parseTestIdsFromFile, readAndParse.
  rewrite H by apply list_elem_of_here.
  rewrite IH; [done |]. intros r Hr. apply H. by apply list_elem_of_further.
Qed.





End RepeatedRunFacts.

Section RoundTripFacts.
Import Regex Add AddSpec TreeSpec TitleSpec RegistrySpec.








End RoundTripFacts.

Section GuardFacts.

(** A test call whose first argument is a template literal never has
    its title read by compare or by the clean command's transformFile:
    the node has no [value], the guard ends the visit of the call, and
    nothing below the call is visited either. *)
Lemma template_title_never_read prefix callee quasis expressions others :
  is_it_or_test (calleeName callee) = true →
  let call :=
    CallExpression callee (TemplateLiteral quasis expressions :: others) in
  Compare.scan prefix call = []
  ∧ ∀ changed, CleanTransform.visit prefix call changed = (call, changed).
Proof. intros Htest. simpl. by rewrite Htest. Qed.

End GuardFacts.

Section Evaluations.
Import Fixtures.

(** C1: on a file set in which two tests bear 0001, the main function of
    index.cjs prints the duplicate with both of its (file, title) pairs
    and then goes on to rewrite the file: the third test gets 0002 and
    the file is written. *)
Theorem index_cjs_rewrites_despite_duplicates :
  let o := IndexCjs.main (IndexCjs.Config "0001" false) ["a.test.js"]
                         duplicated in
  (IndexCjs.reported o ≫= (.!! "0001")
     = Some [("a.test.js", "0001: a"); ("a.test.js", "0001: b")])
  ∧ IndexCjs.written (IndexCjs.final o) = ["a.test.js"]
  ∧ IndexCjs.files (IndexCjs.final o) !! "a.test.js" = Some duplicated_after
  ∧ IndexCjs.ending o = IndexCjs.Completed.
Proof. vm_compute. done. Qed.

(** C2: with seed e2e-005 and the identifiers 5 and 7 found, compare
    reports 1, 2, 3, 4 and 6 missing: the range starts at 1, not at the
    number of the seed. *)
Theorem compare_missing_starts_at_one :
  Compare.main "e2e-005" ["a.test.js"] five_and_seven
  = Compare.Report 2 []
      ["e2e-001"; "e2e-002"; "e2e-003"; "e2e-004"; "e2e-006"].
Proof. vm_compute. done. Qed.

(** C3: a test whose title is a template literal without expressions
    and carries an identifier is not counted by compare and not
    stripped by the clean command's transformFile, which leaves the
    file unwritten. *)
Theorem template_title_skipped_by_compare_and_clean :
  Compare.main "e2e-001" ["a.test.js"] template_titled
    = Compare.Report 0 [] []
  ∧ CleanTransform.main "e2e-001" ["a.test.js"] template_titled
    = CleanTransform.Outcome (CleanTransform.World template_titled [])
                             CleanTransform.Completed.
Proof. vm_compute. done. Qed.

(** C4: parseBaseId of add rejects the seed e2e-007, which ends in a run
    of digits; getIdPrefix of compare splits it into e2e- and width 3. *)
Theorem parseBaseId_rejects_seed_with_hyphen :
  Add.parseBaseId "e2e-007"
    = Throw "baseId must be alphanumeric like C001, T1001, etc."
  ∧ Compare.getIdPrefix "e2e-007" = Ok ("e2e-", 3).
Proof. vm_compute. done. Qed.

(** C6: add with seed t-001 on two tests without identifiers assigns
    nothing: the run fails on the seed and no file is written. *)
Theorem add_fails_on_seed_t_001 :
  Add.main (Add.Options "t-001" false) ["a.test.js"] two_plain
  = Add.Outcome (Add.World two_plain [] [] ∅)
      (Add.Failed "baseId must be alphanumeric like C001, T1001, etc.").
Proof. vm_compute. done. Qed.

(** C7: with seed T9 the first add gives the two tests T9 and T10; the
    second add, run at once with the same seed and overwrite off, does
    not recognise T10, allocates it again and writes the file. *)
Theorem second_add_rewrites_after_width_overflow :
  let first := Add.main (Add.Options "T9" false) ["a.test.js"] two_plain in
  let second := Add.main (Add.Options "T9" false) ["a.test.js"]
                         (Add.files (Add.final first)) in
  Add.ending first = Add.Completed
  ∧ Add.files (Add.final first) !! "a.test.js" = Some two_plain_added
  ∧ Add.ending second = Add.Completed
  ∧ Add.written (Add.final second) = ["a.test.js"]
  ∧ Add.files (Add.final second) !! "a.test.js" = Some two_plain_added_twice.
Proof. vm_compute. done. Qed.

(** C8: with seed T9, add followed by clean (cleanFile) restores the
    first title and leaves the second as T10: b. *)
Theorem clean_after_add_keeps_overflowed_id :
  let added := Add.main (Add.Options "T9" false) ["a.test.js"] two_plain in
  let cleaned := CleanFile.main "T9" ["a.test.js"]
                                (Add.files (Add.final added)) in
  Add.ending added = Add.Completed
  ∧ CleanFile.ending cleaned = CleanFile.Completed
  ∧ CleanFile.files (CleanFile.final cleaned) !! "a.test.js"
    = Some two_plain_cleaned.
Proof. vm_compute. done. Qed.

(** The clean command's transformFile, whose pattern takes any count
    of digits, does restore both titles after the same add. *)
Example clean_transform_after_add_strips_overflowed_id :
  let added := Add.main (Add.Options "T9" false) ["a.test.js"] two_plain in
  let cleaned := CleanTransform.main "T9" ["a.test.js"]
                                     (Add.files (Add.final added)) in
  CleanTransform.ending cleaned = CleanTransform.Completed
  ∧ CleanTransform.files (CleanTransform.final cleaned) = two_plain.
Proof. vm_compute. done. Qed.



End Evaluations.

Section DecimalFacts.









End DecimalFacts.

Section IncrementFacts.





End IncrementFacts.

Section CliFacts.
Import JsValue.

Lemma set_union (o : object) key v : set o key v = set ∅ key v ∪ o.
Proof.
  unfold set. destruct (String.eqb key "__proto__").
  - by rewrite (left_id_L ∅ (∪)).
  - by rewrite insert_union_singleton_l, insert_empty.
Qed.

Lemma parseArg_union (o : object) arg :
  Cli.parseArg o arg = Cli.parseArg ∅ arg ∪ o.
Proof.
  unfold Cli.parseArg. destruct (JsText.includes "=" arg); apply set_union.
Qed.

Lemma parseArgs_from (o : object) args :
  foldl Cli.parseArg o args = Cli.parseArgs args ∪ o.
Proof.
  unfold Cli.parseArgs. revert o.
  induction args as [|a args IH]; intros o; simpl.
  - by rewrite (left_id_L ∅ (∪)).
  - rewrite IH, (IH (Cli.parseArg ∅ a)), (parseArg_union o a).
    by rewrite (assoc_L (∪)).
Qed.

(** X11: Arguments given later win: the options of two lists of arguments
    put one after the other are those of the second list, and those of
    the first for the keys the second does not set. *)
Theorem parseArgs_app args1 args2 :
  Cli.parseArgs (args1 ++ args2) = Cli.parseArgs args2 ∪ Cli.parseArgs args1.
Proof.
  unfold Cli.parseArgs at 1. rewrite foldl_app. apply parseArgs_from.
Qed.

Lemma includes_app c (a b : string) :
  JsText.includes c (a +:+ b) = JsText.includes c a || JsText.includes c b.
Proof.
  induction a as [|x a IH]; simpl; [done |]. rewrite IH.
  by destruct (Ascii.eqb x c).
Qed.

Lemma split_without c s : JsText.includes c s = false → JsText.split c s = [s].
Proof.
  induction s as [|x s IH]; simpl; [done |].
  destruct (Ascii.eqb x c); [done |]. simpl. intros H. by rewrite IH.
Qed.

Lemma split_first c k rest :
  JsText.includes c k = false →
  JsText.split c (k +:+ String c rest) = k :: JsText.split c rest.
Proof.
  induction k as [|x k IH]; simpl.
  - by rewrite Ascii.eqb_refl.
  - destruct (Ascii.eqb x c); [done |]. simpl. intros H. by rewrite IH.
Qed.

Lemma split_nonempty c s : JsText.split c s ≠ [].
Proof.
  destruct s as [|x s]; simpl; [done |].
  destruct (Ascii.eqb x c); [done |]. by destruct (JsText.split c s).
Qed.

(** The first two pieces of [key=value] followed by nothing or by a
    further [=...]. *)
Lemma split_key_value c k v rest :
  JsText.includes c k = false → JsText.includes c v = false →
  (rest = "" ∨ ∃ r, rest = String c r) →
  ∃ more, JsText.split c (k +:+ String c (v +:+ rest)) = k :: v :: more.
Proof.
  intros Hk Hv Hrest. rewrite split_first by done.
  destruct Hrest as [->|[r ->]].
  - exists []. by rewrite app_nil_r_str, split_without.
  - exists (JsText.split c r). by rewrite split_first.
Qed.

Lemma parseArgs_snoc args arg :
  Cli.parseArgs (args ++ [arg]) = Cli.parseArg (Cli.parseArgs args) arg.
Proof. unfold Cli.parseArgs. by rewrite foldl_app. Qed.

Lemma parseArg_key_value (o : object) k v rest :
  JsText.includes "=" k = false → JsText.includes "=" v = false →
  (rest = "" ∨ ∃ r, rest = String "=" r) →
  Cli.parseArg o (k +:+ String "=" (v +:+ rest)) = set o k (Text v).
Proof.
  intros Hk Hv Hrest. unfold Cli.parseArg.
  rewrite includes_app. simpl. rewrite orb_true_r.
  by destruct (split_key_value "=" k v rest Hk Hv Hrest) as [more ->].
Qed.

Lemma parseArg_flag (o : object) k :
  JsText.includes "=" k = false →
  Cli.parseArg o k = set o k (Boolean true).
Proof. intros Hk. unfold Cli.parseArg. by rewrite Hk. Qed.

(** X12: The option an argument gives: for [key=value] the text between the
    first [=] and the second one, if there is a second one (what
    follows it is dropped); for an argument without [=], [true]. *)
Theorem parseArgs_last_argument args k v rest :
  JsText.includes "=" k = false → JsText.includes "=" v = false →
  (rest = "" ∨ ∃ r, rest = String "=" r) →
  k ≠ "__proto__" →
  Cli.parseArgs (args ++ [k +:+ String "=" (v +:+ rest)]) !! k = Some (Text v)
  ∧ Cli.parseArgs (args ++ [k]) !! k = Some (Boolean true).
Proof.
  intros Hk Hv Hrest Hproto.
  rewrite !parseArgs_snoc, parseArg_key_value, parseArg_flag by done.
  unfold set. apply String.eqb_neq in Hproto. rewrite Hproto.
  by rewrite !lookup_insert_eq.
Qed.

Lemma parseArgs_last_argument_witness :
  Cli.parseArgs (["overwrite"] ++ ["files=a=b"]) !! "files" = Some (Text "a")
  ∧ Cli.parseArgs (["overwrite"] ++ ["files"]) !! "files"
    = Some (Boolean true).
Proof.
  apply (parseArgs_last_argument ["overwrite"] "files" "a" "=b");
    [done | done | right; by eexists | done].
Defined.

(** X13: What [overwrite] on the command line means to add, as the last
    argument that names it: without a value it turns overwriting on;
    with the value [true] it turns it on; with any other value it
    turns it off, and the configuration file is not asked either
    way. *)
Theorem overwrite_on_command_line args (fileConfig : object) v :
  JsText.includes "=" v = false →
  AddConfig.overwriteExistingIds
    (AddConfig.resolveConfig (Cli.parseArgs (args ++ ["overwrite"]))
                             fileConfig)
  = Boolean true
  ∧ AddConfig.overwriteExistingIds
      (AddConfig.resolveConfig
         (Cli.parseArgs (args ++ ["overwrite=" +:+ v])) fileConfig)
    = Boolean (String.eqb v "true").
Proof.
  intros Hv.
  pose proof (parseArg_key_value (Cli.parseArgs args) "overwrite" v ""
                eq_refl Hv (or_introl eq_refl)) as H1.
  rewrite app_nil_r_str in H1.
  unfold AddConfig.resolveConfig, get. cbn [AddConfig.overwriteExistingIds].
  rewrite !parseArgs_snoc. split.
  - rewrite parseArg_flag by done. unfold set. simpl.
    by rewrite lookup_insert_eq.
  - change ("overwrite=" +:+ v) with ("overwrite" +:+ String "=" v).
    rewrite H1. unfold set. simpl. by rewrite lookup_insert_eq.
Qed.

Lemma overwrite_on_command_line_witness :
  let fileConfig : object := {[ "overwriteExistingIds" := Boolean true ]} in
  AddConfig.overwriteExistingIds
    (AddConfig.resolveConfig (Cli.parseArgs ([] ++ ["overwrite"])) fileConfig)
  = Boolean true
  ∧ AddConfig.overwriteExistingIds
      (AddConfig.resolveConfig
         (Cli.parseArgs ([] ++ ["overwrite=" +:+ "false"])) fileConfig)
    = Boolean (String.eqb "false" "true").
Proof.
  intros fileConfig.
  apply (overwrite_on_command_line [] fileConfig "false"). done.
Defined.

End CliFacts.

Section AddConfigFacts.
Import JsValue.

(** X14: A bare [baseId] on the command line, as the last argument that
    names it, makes add fail on the seed, which is then [true] and has
    no [match] method: nothing is read or written, whatever the
    configuration file says. *)
Theorem add_fails_on_bare_baseId globSync store fileConfig args fs :
  AddConfig.loadConfigFile store = Ok fileConfig →
  AddConfig.main globSync store (Cli.parseArgs (args ++ ["baseId"])) fs
  = Add.Outcome (Add.World fs [] [] ∅)
                (Add.Failed "baseId.match is not a function").
Proof.
  intros Hload. unfold AddConfig.main. rewrite Hload.
  unfold AddConfig.resolveConfig, get. cbn [AddConfig.baseId].
  rewrite parseArgs_snoc, parseArg_flag by done. unfold set. simpl.
  by rewrite lookup_insert_eq.
Qed.

Lemma add_fails_on_bare_baseId_witness :
  AddConfig.main (fun _ => Ok ["a.test.js"])
                 {[ "testIdInjector.config.json"
                    := Ok ({[ "baseId" := Text "C001" ]} : object) ]}
                 (Cli.parseArgs (["files=a.test.js"] ++ ["baseId"]))
                 Fixtures.two_plain
  = Add.Outcome (Add.World Fixtures.two_plain [] [] ∅)
                (Add.Failed "baseId.match is not a function").
Proof.
  apply (add_fails_on_bare_baseId _ _
           (Some ({[ "baseId" := Text "C001" ]} : object))).
  by vm_compute.
Defined.

Lemma get_set_ne (o : object) k k' v : k ≠ k' → get (set o k v) k' = get o k'.
Proof.
  intros Hne. unfold get, set. destruct (String.eqb k "__proto__"); [done |].
  by rewrite lookup_insert_ne.
Qed.

Lemma get_delete_ne (o : object) k k' : k ≠ k' → get (delete k o) k' = get o k'.
Proof. intros Hne. unfold get. by rewrite lookup_delete_ne. Qed.

(** X15: An empty value for [baseId] or for [files] on the command line
    counts as no value: add resolves its configuration as if no
    argument had named the key. *)
Theorem add_ignores_empty_value args (fileConfig : object) key :
  key = "baseId" ∨ key = "files" →
  AddConfig.resolveConfig (Cli.parseArgs (args ++ [key +:+ "="])) fileConfig
  = AddConfig.resolveConfig (delete key (Cli.parseArgs args)) fileConfig.
Proof.
  intros Hkey. rewrite parseArgs_snoc.
  assert (JsText.includes "=" key = false) as Hk
    by (destruct Hkey as [-> | ->]; reflexivity).
  pose proof (parseArg_key_value (Cli.parseArgs args) key "" "" Hk eq_refl
                (or_introl eq_refl)) as Harg.
  change (key +:+ String "=" ("" +:+ "")) with (key +:+ String "=" "") in Harg.
  change (key +:+ "=") with (key +:+ String "=" "").
  rewrite Harg. unfold AddConfig.resolveConfig.
  destruct Hkey as [-> | ->].
  - rewrite (get_set_ne _ "baseId" "overwrite"),
      (get_set_ne _ "baseId" "files"),
      (get_delete_ne _ "baseId" "overwrite"),
      (get_delete_ne _ "baseId" "files") by done.
    f_equal. unfold get, set. simpl.
    by rewrite lookup_insert_eq, lookup_delete_eq.
  - rewrite (get_set_ne _ "files" "overwrite"),
      (get_set_ne _ "files" "baseId"),
      (get_delete_ne _ "files" "overwrite"),
      (get_delete_ne _ "files" "baseId") by done.
    f_equal. unfold get, set. simpl.
    by rewrite lookup_insert_eq, lookup_delete_eq.
Qed.

Lemma add_ignores_empty_value_witness :
  let fileConfig : object := {[ "baseId" := Text "C001" ]} in
  AddConfig.resolveConfig
    (Cli.parseArgs (["baseId=T9"; "overwrite"] ++ ["baseId" +:+ "="]))
    fileConfig
  = AddConfig.resolveConfig
      (delete "baseId" (Cli.parseArgs ["baseId=T9"; "overwrite"])) fileConfig.
Proof.
  intros fileConfig.
  apply (add_ignores_empty_value ["baseId=T9"; "overwrite"] fileConfig "baseId").
  by left.
Defined.

End AddConfigFacts.

Section CommandArgsFacts.
Import CommandArgs ArgsSpec.

Lemma split_head c s k :
  JsText.split c s !! 0 = Some k →
  JsText.includes c k = false
  ∧ ((s = k ∧ JsText.split c s = [k])
     ∨ ∃ t, s = k +:+ String c t ∧ JsText.split c s = k :: JsText.split c t).
Proof.
  revert k. induction s as [|x s IH]; intros k; simpl.
  - intros [= <-]. split; [done | by left].
  - destruct (Ascii.eqb_spec x c) as [-> | Hx].
    + intros [= <-]. split; [done |]. right. by exists s.
    + pose proof (split_nonempty c s) as Hne.
      destruct (JsText.split c s) as [|piece pieces] eqn:Hs; [done |].
      intros [= <-]. destruct (IH piece eq_refl) as [Hinc Hcases].
      split.
      { simpl. apply Ascii.eqb_neq in Hx. by rewrite Hx. }
      destruct Hcases as [[Heq [= ->]] | (t & Heq & [= ->])]; subst s.
      * by left.
      * right. by exists t.
Qed.

Lemma split_pieces c s k v :
  JsText.split c s !! 0 = Some k → JsText.split c s !! 1 = Some v →
  JsText.includes c v = false
  ∧ ∃ rest, s = k +:+ String c (v +:+ rest)
            ∧ (rest = "" ∨ ∃ r, rest = String c r).
Proof.
  intros Hk Hv.
  destruct (split_head _ _ _ Hk) as [_ [[_ Hs] | (t & -> & Hs)]];
    rewrite Hs in Hv; [done |].
  simpl in Hv. destruct (split_head _ _ _ Hv) as [Hinc Hcases].
  split; [done |]. destruct Hcases as [[-> _] | (t' & -> & _)].
  - exists "". rewrite app_nil_r_str. split; [done | by left].
  - exists (String c t'). split; [done |]. right. by eexists.
Qed.

Lemma parseArg_stored args p arg :
  (∀ v, baseId p = Some v → stored_from "baseId" args v) →
  (∀ v, files p = Some v → stored_from "files" args v) →
  (∀ v, baseId (parseArg p arg) = Some v →
        stored_from "baseId" (args ++ [arg]) v)
  ∧ (∀ v, files (parseArg p arg) = Some v →
          stored_from "files" (args ++ [arg]) v).
Proof.
  intros Hb Hf.
  assert (∀ key v, stored_from key args v → stored_from key (args ++ [arg]) v)
    as Hmono.
  { intros key v (Hv & a & rest & Ha & Heq & Hrest). split; [done |].
    exists a, rest. split_and!; [|done..]. apply elem_of_app. by left. }
  assert (∀ key v, JsText.split "=" arg !! 0 = Some key →
                   JsText.split "=" arg !! 1 = Some v →
                   stored_from key (args ++ [arg]) v) as Hnew.
  { intros key v Hk Hv.
    destruct (split_pieces _ _ _ _ Hk Hv) as (Hinc & rest & Heq & Hrest).
    split; [done |]. exists arg, rest. split_and!; [|done..].
    apply elem_of_app. right. by apply list_elem_of_singleton. }
  unfold parseArg.
  destruct (bool_decide_reflect (JsText.split "=" arg !! 0 = Some "baseId"))
    as [Hkb|Hkb];
    destruct (bool_decide_reflect (JsText.split "=" arg !! 0 = Some "files"))
      as [Hkf|Hkf]; simpl; split; intros v Hv; eauto.
Qed.

Lemma parseArgs_loop_stored args :
  let p := foldl parseArg (Parsed None None) args in
  (∀ v, baseId p = Some v → stored_from "baseId" args v)
  ∧ (∀ v, files p = Some v → stored_from "files" args v).
Proof.
  induction args as [|arg args IH] using rev_ind; [done |].
  rewrite foldl_app. simpl. destruct IH as [Hb Hf].
  by apply parseArg_stored.
Qed.

(** X17: When parseArgs of clean (first form) and of compare returns, the
    two values are not empty, hold no [=], and each is the text that
    follows [baseId=] or [files=] in one of the arguments, up to the
    next [=] if there is one. *)
Theorem parseArgs_values args b f :
  parseArgs args = Ok (b, f) →
  b ≠ "" ∧ f ≠ "" ∧ stored_from "baseId" args b ∧ stored_from "files" args f.
Proof.
  unfold parseArgs. destruct (parseArgs_loop_stored args) as [Hb Hf].
  destruct (baseId _) as [b'|]; [|done]. destruct (files _) as [f'|]; [|done].
  destruct (Js.truthy_string b') eqn:Htb; [|done].
  destruct (Js.truthy_string f') eqn:Htf; [|done].
  intros [= <- <-]. split_and!; [| |by apply Hb|by apply Hf].
  - intros ->. done.
  - intros ->. done.
Qed.

Lemma parseArgs_values_witness :
  "e2e-001" ≠ "" ∧ "a" ≠ ""
  ∧ stored_from "baseId" ["compare"; "baseId=e2e-001"; "files=a=b"] "e2e-001"
  ∧ stored_from "files" ["compare"; "baseId=e2e-001"; "files=a=b"] "a".
Proof.
  apply (parseArgs_values ["compare"; "baseId=e2e-001"; "files=a=b"]).
  reflexivity.
Defined.

End CommandArgsFacts.

Section AddV2SeedFacts.
Import Regex SeedSpec.

(** The lazy prefix group that wants one character at least: its
    attempts are those of the lazy prefix group on the subject without
    its first character, with that character put in front. *)
Lemma nonempty_lazy_prefix_unfold p r x s :
  attempts (Cat (Group (Cat (Count p 1) (LazyStar p))) r) (String x s)
  = if p x then shift x <$> attempts (Cat (Group (LazyStar p)) r) s else [].
Proof.
  set (G := fun a => Attempt (consumed a) (rest a) (captures a ++ [consumed a])).
  set (F := fun a1 : attempt =>
              (fun a2 => Attempt (consumed a1 +:+ consumed a2) (rest a2)
                                 (captures a1 ++ captures a2))
                <$> attempts r (rest a1)).
  set (J := fun a1 : attempt =>
              (fun a2 => Attempt (consumed a1 +:+ consumed a2) (rest a2)
                                 (captures a1 ++ captures a2))
                <$> star_lazy p (rest a1)).
  change (attempts (Cat (Group (Cat (Count p 1) (LazyStar p))) r) (String x s))
    with ((G <$> (count_exact p 1 (String x s) ≫= J)) ≫= F).
  change (attempts (Cat (Group (LazyStar p)) r) s)
    with ((G <$> star_lazy p s) ≫= F).
  change (count_exact p 1 (String x s))
    with (if p x then cons_char x <$> [Attempt "" s []] else []).
  destruct (p x); [|done].
  rewrite fmap_cons, fmap_nil, bind_singleton.
  unfold J. cbn [cons_char consumed rest captures].
  pose proof (star_lazy_no_captures p s) as Hk.
  induction (star_lazy p s) as [|a l IH]; [done |].
  rewrite !fmap_cons, !bind_cons, fmap_app, <- IH.
  2:{ intros b Hb. apply Hk. by right. }
  f_equal. unfold F, G, shift. simpl. rewrite <- list_fmap_compose.
  apply list_fmap_ext. intros _ b _. simpl.
  rewrite (Hk a) by (by left). done.
Qed.

Lemma nonempty_lazy_prefix_exec p r x s :
  exec (Cat (Group (Cat (Count p 1) (LazyStar p))) r) (String x s)
  = if p x then shift x <$> exec (Cat (Group (LazyStar p)) r) s else None.
Proof.
  unfold exec. rewrite nonempty_lazy_prefix_unfold.
  destruct (p x); [|done].
  by destruct (attempts (Cat (Group (LazyStar p)) r) s).
Qed.

(** X18: The other form of add splits a seed after its first character at
    the start of the final run of digits of what follows: the prefix is
    never empty, and a seed of digits alone gives its first digit to
    the prefix. A seed of one character is refused. *)
Theorem parseBaseId_v2_keeps_first_character c q ds :
  Js.is_dot c = true → Js.all_chars Js.is_dot q = true →
  ends_in_digit q = false →
  ds ≠ "" → Js.all_chars Js.is_digit ds = true →
  AddV2.parseBaseId (String c (q +:+ ds))
  = Ok (AddV2.Seed (String c q) (String.length ds) (Js.digits_value ds 0))
  ∧ AddV2.parseBaseId (String c "")
    = Throw ("Invalid baseId format: " +:+ String c "").
Proof.
  intros Hc Hq He Hne Hd. unfold AddV2.parseBaseId, AddV2.baseIdRegex.
  rewrite !nonempty_lazy_prefix_exec, Hc. split.
  - pose proof (getIdPrefix_regex_exec q ds Hq He Hne Hd) as Hexec.
    unfold CleanTransform.baseIdRegex in Hexec. rewrite Hexec. simpl.
    by rewrite parseInt_digits.
  - done.
Qed.

Lemma parseBaseId_v2_keeps_first_character_witness :
  AddV2.parseBaseId (String "0" ("" +:+ "001"))
  = Ok (AddV2.Seed (String "0" "") (String.length "001")
                   (Js.digits_value "001" 0))
  ∧ AddV2.parseBaseId (String "0" "")
    = Throw ("Invalid baseId format: " +:+ String "0" "").
Proof.
  apply (parseBaseId_v2_keeps_first_character "0" "" "001"); done.
Defined.

End AddV2SeedFacts.

Section AddV2Facts.
Import Regex AddV2.





Lemma transformFile_v2_frame p overwrite basePrefix numLength startIndex w :
  is_Some (files w !! p) →
  ∃ w',
    transformFile p overwrite basePrefix numLength startIndex w = Ok w'
    ∧ (∀ q, is_Some (files w !! q) → is_Some (files w' !! q))
    ∧ (∀ q, q ≠ p → files w' !! q = files w !! q)
    ∧ (∀ q, q ∈ written w' → q ∈ written w ∨ q = p).
Proof.
  intros [ast Hp]. unfold transformFile, readAndParse. rewrite Hp.
  destruct (visit _ _ _ _ ast _) as [ast' st].
  destruct (fileChanged st); eexists; (split; [done |]); simpl.
  - split_and!.
    + intros q Hq. destruct (decide (q = p)) as [->|Hne].
      * rewrite lookup_insert_eq. by eexists.
      * by rewrite lookup_insert_ne.
    + intros q Hq. by rewrite lookup_insert_ne.
    + intros q [Hq | ->%list_elem_of_singleton]%elem_of_app; auto.
  - split_and!; auto.
Qed.

Lemma updateAll_v2_frame overwrite basePrefix numLength startNumber paths :
  ∀ w,
    (∀ p, p ∈ paths → is_Some (files w !! p)) →
    ∃ w',
      updateAll overwrite basePrefix numLength startNumber paths w
      = (w', None)
      ∧ (∀ q, q ∉ paths → files w' !! q = files w !! q)
      ∧ (∀ q, q ∈ written w' → q ∈ written w ∨ q ∈ paths).
Proof.
  induction paths as [|p paths IH]; intros w Hall.
  - exists w. split_and!; auto.
  - destruct (transformFile_v2_frame p overwrite basePrefix numLength
                startNumber w) as (w1 & Ht & Hkeep & Hother & Hwr).
    { apply Hall, list_elem_of_here. }
    destruct (IH w1) as (w' & Hrun & Hother' & Hwr').
    { intros q Hq. apply Hkeep, Hall. by apply list_elem_of_further. }
    exists w'. cbn [updateAll]. rewrite Ht. split_and!; [done | |].
    + intros q [Hqp Hq]%not_elem_of_cons. by rewrite Hother', Hother.
    + intros q Hq. destruct (Hwr' q Hq) as [Hq1 | Hq1].
      * destruct (Hwr q Hq1) as [? | ->]; [by left |].
        right. apply list_elem_of_here.
      * right. by apply list_elem_of_further.
Qed.

Lemma scanAll_v2_readable pattern fs paths ids :
  scanAll pattern fs paths = Ok ids → ∀ p, p ∈ paths → is_Some (fs !! p).
Proof.
  revert ids. induction paths as [|p paths IH]; intros ids; simpl.
  - intros _ q Hq. by apply elem_of_nil in Hq.
  - unfold readAndParse. destruct (fs !! p) as [ast|] eqn:Hp; [|done].
    destruct (scanAll pattern fs paths) as [more|]; [|done].
    intros _ q [-> | Hq]%elem_of_cons; [by rewrite Hp | by eapply IH].
Qed.

(** X20: A run of the other form of add that fails has written nothing: the
    options are checked, the seed parsed and every file read and
    parsed before the first file is rewritten. Whatever the run, a
    file that is not among the paths stays as it was, and only paths
    that were given are written. *)
Theorem add_v2_writes_all_or_nothing o paths fs :
  let run := main o paths fs in
  (∀ msg, ending run = Failed msg → final run = World fs [] ∅)
  ∧ (∀ q, q ∉ paths → files (final run) !! q = fs !! q)
  ∧ (∀ q, q ∈ written (final run) → q ∈ paths).
Proof.
  unfold main.
  destruct (negb _); [by split_and!; [| |intros q ?%elem_of_nil] |].
  destruct (parseBaseId _) as [s|]; [|by split_and!; [| |intros q ?%elem_of_nil]].
  destruct (scanAll _ fs paths) as [ids|] eqn:Hscan;
    [|by split_and!; [| |intros q ?%elem_of_nil]].
  destruct (updateAll_v2_frame (overwriteExistingIds o) (prefix s)
              (numLength s) (startNumber s) paths
              (World fs [] (list_to_set ids))) as (w' & -> & Hother & Hwr).
  { by eapply scanAll_v2_readable. }
  simpl. split_and!; [done | done |].
  intros q Hq. destruct (Hwr q Hq) as [?%elem_of_nil | ?]; done.
Qed.

End AddV2Facts.

Section WriteFacts.

Lemma add_transformFile_frame p cfg base (w : Add.world) :
  is_Some (Add.files w !! p) →
  ∃ w' inc,
    Add.transformFile p cfg base w = Ok (w', inc)
    ∧ (∀ q, is_Some (Add.files w !! q) → is_Some (Add.files w' !! q))
    ∧ (∀ q, q ≠ p → Add.files w' !! q = Add.files w !! q)
    ∧ (∀ q, q ∈ Add.written w' → q ∈ Add.written w ∨ q = p).
Proof.
  intros [ast Hp]. unfold Add.transformFile, readAndParse. rewrite Hp.
  destruct (Add.visit _ _ ast _) as [ast' st].
  destruct (Add.fileChanged st); eexists _, _; (split; [done |]); simpl.
  - split_and!.
    + intros q Hq. destruct (decide (q = p)) as [->|Hne].
      * rewrite lookup_insert_eq. by eexists.
      * by rewrite lookup_insert_ne.
    + intros q Hq. by rewrite lookup_insert_ne.
    + intros q [Hq | ->%list_elem_of_singleton]%elem_of_app; auto.
  - split_and!; auto.
Qed.

Lemma add_updateAll_frame cfg paths :
  ∀ totalInc (w : Add.world),
    (∀ p, p ∈ paths → is_Some (Add.files w !! p)) →
    ∃ w',
      Add.updateAll cfg paths totalInc w = (w', None)
      ∧ (∀ q, q ∉ paths → Add.files w' !! q = Add.files w !! q)
      ∧ (∀ q, q ∈ Add.written w' → q ∈ Add.written w ∨ q ∈ paths).
Proof.
  induction paths as [|p paths IH]; intros totalInc w Hall.
  - exists w. split_and!; auto.
  - destruct (add_transformFile_frame p cfg (Add.baseNumber cfg + totalInc) w)
      as (w1 & inc & Ht & Hkeep & Hother & Hwr).
    { apply Hall, list_elem_of_here. }
    destruct (IH (totalInc + inc)%N w1) as (w' & Hrun & Hother' & Hwr').
    { intros q Hq. apply Hkeep, Hall. by apply list_elem_of_further. }
    exists w'. cbn [Add.updateAll]. rewrite Ht. split_and!; [done | |].
    + intros q [Hqp Hq]%not_elem_of_cons. by rewrite Hother', Hother.
    + intros q Hq. destruct (Hwr' q Hq) as [Hq1 | Hq1].
      * destruct (Hwr q Hq1) as [? | ->]; [by left |].
        right. apply list_elem_of_here.
      * right. by apply list_elem_of_further.
Qed.

Lemma add_scanAll_readable fs cfg paths found :
  Add.scanAll fs cfg paths = Ok found → ∀ p, p ∈ paths → is_Some (fs !! p).
Proof.
  revert found. induction paths as [|p paths IH]; intros found; simpl.
  - intros _ q Hq. by apply elem_of_nil in Hq.
  - unfold Add.parseTestIdsFromFile, readAndParse.
    destruct (fs !! p) as [ast|] eqn:Hp; [|done].
    destruct (Add.scanAll fs cfg paths) as [more|]; [|done].
    intros _ q [-> | Hq]%elem_of_cons; [by rewrite Hp | by eapply IH].
Qed.

(** X10: A run of add that fails, or that stops on duplicates or for want
    of files, has written nothing: every file is read and parsed by
    the scan before the first one is rewritten, so the rewrite phase
    cannot fail half way. Whatever the run, a file that is not among
    the paths stays as it was, and only paths that were given are
    written. *)
Theorem add_writes_all_or_nothing opts paths fs :
  let run := Add.main opts paths fs in
  (Add.ending run ≠ Add.Completed →
   Add.final run = Add.World fs [] [] ∅)
  ∧ (∀ q, q ∉ paths → Add.files (Add.final run) !! q = fs !! q)
  ∧ (∀ q, q ∈ Add.written (Add.final run) → q ∈ paths).
Proof.
  unfold Add.main.
  destruct (Add.parseBaseId _) as [[[prefix b] w]|];
    [|by split_and!; [| |intros q ?%elem_of_nil]].
  destruct paths as [|p0 paths0] eqn:Hpaths;
    [by split_and!; [| |intros q ?%elem_of_nil] |].
  rewrite <- Hpaths. clear Hpaths.
  set (cfg := Add.Config _ _ _ _).
  destruct (Add.scanAll fs cfg paths) as [found|] eqn:Hscan;
    [|by split_and!; [| |intros q ?%elem_of_nil]].
  case_decide; [|by split_and!; [| |intros q ?%elem_of_nil]].
  destruct (add_updateAll_frame cfg paths 0
              (Add.World fs [] [] (dom (Add.idOccurrences found))))
    as (w' & -> & Hother & Hwr).
  { by eapply add_scanAll_readable. }
  simpl. split_and!; [done | done |].
  intros q Hq. destruct (Hwr q Hq) as [?%elem_of_nil | ?]; done.
Qed.





End WriteFacts.

Section CleanWriteFacts.

Lemma cleanFile_frame p prefix width (w : CleanFile.world) :
  (∀ w', CleanFile.cleanFile p prefix width w = Ok w' →
         (∀ q, q ≠ p → CleanFile.files w' !! q = CleanFile.files w !! q)
         ∧ (∀ q, q ∈ CleanFile.written w' → q ∈ CleanFile.written w ∨ q = p)).
Proof.
  intros w'. unfold CleanFile.cleanFile.
  destruct (readAndParse _ p) as [ast|]; [|done].
  destruct (CleanFile.visit _ _ ast false) as [ast' []]; intros [= <-]; simpl.
  - split.
    + intros q Hq. by rewrite lookup_insert_ne.
    + intros q [Hq | ->%list_elem_of_singleton]%elem_of_app; auto.
  - auto.
Qed.

Lemma cleanAll_frame prefix width paths :
  ∀ (w w' : CleanFile.world) r,
    CleanFile.cleanAll prefix width paths w = (w', r) →
    (∀ q, q ∉ paths → CleanFile.files w' !! q = CleanFile.files w !! q)
    ∧ (∀ q, q ∈ CleanFile.written w' → q ∈ CleanFile.written w ∨ q ∈ paths).
Proof.
  induction paths as [|p paths IH]; intros w w' r; simpl.
  - intros [= <- <-]. auto.
  - destruct (CleanFile.cleanFile p prefix width w) as [w1|] eqn:Hc.
    + intros Hrun. destruct (cleanFile_frame _ _ _ _ _ Hc) as [Ho Hw].
      destruct (IH _ _ _ Hrun) as [Ho' Hw']. split.
      * intros q [Hqp Hq]%not_elem_of_cons. by rewrite Ho', Ho.
      * intros q Hq. destruct (Hw' q Hq) as [Hq1 | Hq1].
        -- destruct (Hw q Hq1) as [? | ->]; [by left |].
           right. apply list_elem_of_here.
        -- right. by apply list_elem_of_further.
    + intros [= <- <-]. auto.
Qed.

Lemma clean_transformFile_frame p prefix (w : CleanTransform.world) :
  (∀ w', CleanTransform.transformFile p prefix w = Ok w' →
         (∀ q, q ≠ p →
               CleanTransform.files w' !! q = CleanTransform.files w !! q)
         ∧ (∀ q, q ∈ CleanTransform.written w' →
                 q ∈ CleanTransform.written w ∨ q = p)).
Proof.
  intros w'. unfold CleanTransform.transformFile.
  destruct (readAndParse _ p) as [ast|]; [|done].
  destruct (CleanTransform.visit _ ast false) as [ast' []];
    intros [= <-]; simpl.
  - split.
    + intros q Hq. by rewrite lookup_insert_ne.
    + intros q [Hq | ->%list_elem_of_singleton]%elem_of_app; auto.
  - auto.
Qed.

Lemma clean_transformAll_frame prefix paths :
  ∀ (w w' : CleanTransform.world) r,
    CleanTransform.transformAll prefix paths w = (w', r) →
    (∀ q, q ∉ paths →
          CleanTransform.files w' !! q = CleanTransform.files w !! q)
    ∧ (∀ q, q ∈ CleanTransform.written w' →
            q ∈ CleanTransform.written w ∨ q ∈ paths).
Proof.
  induction paths as [|p paths IH]; intros w w' r; simpl.
  - intros [= <- <-]. auto.
  - destruct (CleanTransform.transformFile p prefix w) as [w1|] eqn:Hc.
    + intros Hrun. destruct (clean_transformFile_frame _ _ _ _ Hc) as [Ho Hw].
      destruct (IH _ _ _ Hrun) as [Ho' Hw']. split.
      * intros q [Hqp Hq]%not_elem_of_cons. by rewrite Ho', Ho.
      * intros q Hq. destruct (Hw' q Hq) as [Hq1 | Hq1].
        -- destruct (Hw q Hq1) as [? | ->]; [by left |].
           right. apply list_elem_of_here.
        -- right. by apply list_elem_of_further.
    + intros [= <- <-]. auto.
Qed.

Lemma clean_transform_main_frame baseId paths fs :
  let run := CleanTransform.main baseId paths fs in
  (∀ q, q ∉ paths →
        CleanTransform.files (CleanTransform.final run) !! q = fs !! q)
  ∧ (∀ q, q ∈ CleanTransform.written (CleanTransform.final run) → q ∈ paths).
Proof.
  assert (∀ q : string, q ∈ @nil string → q ∈ paths) as Hnil
    by (by intros q ?%elem_of_nil).
  unfold CleanTransform.main.
  destruct (CleanTransform.getIdPrefix baseId) as [prefix|]; [|done].
  destruct paths as [|p0 paths0] eqn:Hpaths; [done |].
  rewrite <- Hpaths in *. clear Hpaths.
  destruct (CleanTransform.transformAll _ _ _) as [w r] eqn:Hrun.
  apply clean_transformAll_frame in Hrun as [Ho Hw].
  assert (∀ q, q ∈ CleanTransform.written w → q ∈ paths) as Hw'.
  { intros q Hq. destruct (Hw q Hq) as [?%elem_of_nil | ?]; done. }
  by destruct r.
Qed.

Lemma cleanFile_main_frame baseId paths fs :
  let run := CleanFile.main baseId paths fs in
  (∀ q, q ∉ paths → CleanFile.files (CleanFile.final run) !! q = fs !! q)
  ∧ (∀ q, q ∈ CleanFile.written (CleanFile.final run) → q ∈ paths).
Proof.
  assert (∀ q : string, q ∈ @nil string → q ∈ paths) as Hnil
    by (by intros q ?%elem_of_nil).
  unfold CleanFile.main.
  destruct (CleanFile.parseBaseId baseId) as [[prefix width]|]; [|done].
  destruct paths as [|p0 paths0] eqn:Hpaths; [done |].
  rewrite <- Hpaths in *. clear Hpaths.
  destruct (CleanFile.cleanAll _ _ _ _) as [w r] eqn:Hrun.
  apply cleanAll_frame in Hrun as [Ho Hw].
  assert (∀ q, q ∈ CleanFile.written w → q ∈ paths) as Hw'.
  { intros q Hq. destruct (Hw q Hq) as [?%elem_of_nil | ?]; done. }
  by destruct r.
Qed.

(** X22: Both forms of clean, however the run ends: a file that is not
    among the paths stays as it was, and only paths that were given are
    written. *)
Theorem clean_touches_given_paths_only baseId paths fs :
  let run1 := CleanTransform.main baseId paths fs in
  let run2 := CleanFile.main baseId paths fs in
  (∀ q, q ∉ paths →
        CleanTransform.files (CleanTransform.final run1) !! q = fs !! q
        ∧ CleanFile.files (CleanFile.final run2) !! q = fs !! q)
  ∧ (∀ q, q ∈ CleanTransform.written (CleanTransform.final run1) → q ∈ paths)
  ∧ (∀ q, q ∈ CleanFile.written (CleanFile.final run2) → q ∈ paths).
Proof.
  destruct (clean_transform_main_frame baseId paths fs) as [Ho1 Hw1].
  destruct (cleanFile_main_frame baseId paths fs) as [Ho2 Hw2].
  split_and!; auto.
Qed.

End CleanWriteFacts.

Section WidthFreeFacts.
Import Regex SeedSpec TitleSpec.









End WidthFreeFacts.

Section CompareReportFacts.
Import Compare ReportSpec.

Lemma occurrences_snoc i idObjects o :
  occurrences i (idObjects ++ [o])
  = occurrences i idObjects + (if decide (full o = i) then 1 else 0).
Proof.
  unfold occurrences. rewrite filter_app, length_app. f_equal.
  rewrite filter_cons, filter_nil. by case_decide.
Qed.

Lemma count_up_keys key (m : list (string * nat)) k :
  k ∈ (count_up key m).*1 ↔ k = key ∨ k ∈ m.*1.
Proof.
  induction m as [|[k0 c0] m IH]; simpl.
  - rewrite list_elem_of_singleton. split; [by left |].
    by intros [-> | ?%elem_of_nil].
  - destruct (String.eqb_spec k0 key) as [-> | Hne]; simpl.
    + rewrite !elem_of_cons. naive_solver.
    + rewrite !elem_of_cons, IH. naive_solver.
Qed.

Lemma count_up_NoDup key (m : list (string * nat)) :
  NoDup (m.*1) → NoDup ((count_up key m).*1).
Proof.
  induction m as [|[k0 c0] m IH]; simpl.
  - intros _. apply NoDup_singleton.
  - intros [Hk0 Hnd]%NoDup_cons.
    destruct (String.eqb_spec k0 key) as [-> | Hne]; simpl.
    + by apply NoDup_cons.
    + apply NoDup_cons. split; [|by apply IH].
      rewrite count_up_keys. by intros [-> | ?].
Qed.

Lemma count_up_map key (m : list (string * nat)) :
  (list_to_map (count_up key m) : gmap string nat)
  = <[key := S (default 0 ((list_to_map m : gmap string nat) !! key))]>
      (list_to_map m).
Proof.
  induction m as [|[k0 c0] m IH]; simpl; [done |].
  destruct (String.eqb_spec k0 key) as [-> | Hne]; simpl.
  - rewrite lookup_insert_eq, insert_insert_eq. simpl.
    by rewrite Nat.add_1_r.
  - rewrite lookup_insert_ne by done. rewrite IH.
    by apply insert_insert_ne.
Qed.

Lemma fullMap_spec idObjects :
  let fullMap := foldl (fun m o => count_up (full o) m) [] idObjects in
  NoDup (fullMap.*1)
  ∧ ∀ k, (list_to_map fullMap : gmap string nat) !! k
         = if decide (occurrences k idObjects = 0) then None
           else Some (occurrences k idObjects).
Proof.
  induction idObjects as [|o idObjects IH] using rev_ind; simpl.
  - split; [constructor | done].
  - rewrite foldl_app. simpl. destruct IH as [Hnd Hin].
    split; [by apply count_up_NoDup |]. intros k.
    rewrite count_up_map, occurrences_snoc.
    destruct (decide (full o = k)) as [<- | Hne]; cbn iota.
    + rewrite lookup_insert_eq, Hin.
      rewrite (decide_False (P := _ + 1 = 0)) by lia. f_equal.
      case_decide as Hz; simpl; lia.
    + rewrite lookup_insert_ne, Hin, Nat.add_0_r by done. done.
Qed.

(** X24: The duplicates compare reports are the identifier texts found more
    than once, each reported once. Two identifiers with the same
    number and different texts are not duplicates of one another. *)
Theorem compareIds_duplicates idObjects baseNumber :
  NoDup (duplicates (compareIds idObjects baseNumber))
  ∧ ∀ i, i ∈ duplicates (compareIds idObjects baseNumber)
         ↔ 1 < occurrences i idObjects.
Proof.
  unfold compareIds. cbn [duplicates].
  destruct (fullMap_spec idObjects) as [Hnd Hin]. cbv zeta in Hnd, Hin.
  set (fullMap := foldl (fun m o => count_up (full o) m) [] idObjects) in *.
  split.
  - eapply sublist_NoDup; [exact Hnd |].
    apply fmap_sublist, sublist_filter.
  - intros i. rewrite list_elem_of_fmap. split.
    + intros ([k c] & -> & [Hc Hk]%list_elem_of_filter). simpl in *.
      apply elem_of_list_to_map in Hk; [|done]. rewrite Hin in Hk.
      case_decide; [done |]. injection Hk as <-. done.
    + intros Hocc. exists (i, occurrences i idObjects). split; [done |].
      apply list_elem_of_filter. split; [done |].
      apply elem_of_list_to_map; [done |]. rewrite Hin.
      rewrite decide_False by lia. done.
Qed.

Lemma StronglySorted_filter {A} (R : relation A) (P : A → Prop)
      `{∀ x, Decision (P x)} l :
  StronglySorted R l → StronglySorted R (filter P l).
Proof.
  induction 1 as [|x l Hl IH Hx]; [constructor |].
  rewrite filter_cons. case_decide; [|done]. constructor; [done |].
  apply Forall_forall. intros y [_ Hy]%list_elem_of_filter.
  by eapply Forall_forall in Hx.
Qed.

Lemma StronglySorted_seq start len : StronglySorted lt (seq start len).
Proof.
  revert start. induction len as [|len IH]; intros start; simpl;
    constructor; [apply IH |].
  apply Forall_forall. intros y Hy%elem_of_seq. lia.
Qed.

(** X25: The missing numbers compare computes come in increasing order,
    each once. *)
Theorem compareIds_missing_increasing idObjects baseNumber :
  StronglySorted N.lt (missing (compareIds idObjects baseNumber)).
Proof.
  unfold compareIds. cbn [missing].
  destruct (last _) as [bound|]; [|constructor].
  apply StronglySorted_filter. unfold range.
  eapply StronglySorted_fmap; [|apply StronglySorted_seq].
  intros x y Hxy. simpl. lia.
Qed.

End CompareReportFacts.

Section MoreWitnesses.
Import Fixtures RegistrySpec.

Lemma add_blocked_by_duplicates_witness :
  ∃ dups,
    Add.main (Add.Options "0001" false) ["a.test.js"] duplicated
    = Add.Outcome (Add.World duplicated [] [] ∅) (Add.Blocked dups)
    ∧ ∀ j, dups !! j
           = if decide (1 < length (bearers j
                          [Add.Occurrence "0001" "0001: a" "a.test.js";
                           Add.Occurrence "0001" "0001: b" "a.test.js"]))
             then Some (bearers j
                          [Add.Occurrence "0001" "0001: a" "a.test.js";
                           Add.Occurrence "0001" "0001: b" "a.test.js"])
             else None.
Proof.
  apply (add_blocked_by_duplicates (Add.Options "0001" false) ["a.test.js"]
           duplicated "" 1 4 _ "0001").
  - reflexivity.
  - reflexivity.
  - vm_compute. lia.
Defined.



Lemma parseBaseId_only_letters_digits_witness :
  ∃ p ds, "C001" = p +:+ ds ∧ Js.all_chars Js.is_alpha p = true
          ∧ ds ≠ "" ∧ Js.all_chars Js.is_digit ds = true.
Proof.
  apply (parseBaseId_only_letters_digits "C001" ("C", 1%N, 3)). reflexivity.
Defined.

Lemma getIdPrefix_final_digit_run_witness :
  Compare.getIdPrefix ("e2e-" +:+ "007") = Ok ("e2e-", 3)
  ∧ CleanTransform.getIdPrefix ("e2e-" +:+ "007") = Ok "e2e-".
Proof. apply (getIdPrefix_final_digit_run "e2e-" "007"); done. Defined.

Lemma getIdPrefix_without_final_digit_witness :
  Compare.getIdPrefix "e2e-"
  = Throw "baseId must end with a number (e.g., e2e-001, test99)".
Proof. apply (getIdPrefix_without_final_digit "e2e-"). reflexivity. Defined.

End MoreWitnesses.

Section AddV2OptionFacts.
Import AddV2.

Lemma split_key_iff arg key :
  JsText.includes "=" key = false →
  JsText.split "=" arg !! 0 = Some key
  ↔ arg = key ∨ ∃ rest, arg = key +:+ String "=" rest.
Proof.
  intros Hkey. split.
  - intros [_ [[-> _] | (t & -> & _)]]%split_head; [by left |].
    right. by exists t.
  - intros [-> | [rest ->]].
    + by rewrite split_without.
    + by rewrite split_first.
Qed.

Lemma parseCliOption_overwrite o arg :
  overwriteExistingIds (parseCliOption o arg)
  = bool_decide (JsText.split "=" arg !! 0 = Some "overwrite")
    || overwriteExistingIds o.
Proof.
  unfold parseCliOption.
  destruct (bool_decide (JsText.split "=" arg !! 0 = Some "overwrite"));
    [done |].
  by repeat case_bool_decide.
Qed.

(** X26: In the other form of add every argument that names [overwrite]
    turns overwriting on, whatever value it gives ([overwrite=false]
    too), and no argument turns it off. *)
Theorem add_v2_overwrite_flag args :
  overwriteExistingIds (parseCliOptions args) = true
  ↔ ∃ arg, arg ∈ args
           ∧ (arg = "overwrite" ∨ ∃ value, arg = "overwrite=" +:+ value).
Proof.
  unfold parseCliOptions.
  induction args as [|arg args IH] using rev_ind.
  - split; [done |]. by intros (arg & ?%elem_of_nil & _).
  - rewrite foldl_app. simpl. rewrite parseCliOption_overwrite.
    rewrite orb_true_iff, IH, bool_decide_eq_true.
    rewrite (split_key_iff arg "overwrite") by done. split.
    + intros [Harg | (a & Ha & Hform)].
      * exists arg. split; [|exact Harg]. apply elem_of_app. right.
        by apply list_elem_of_singleton.
      * exists a. split; [|done]. apply elem_of_app. by left.
    + intros (a & [Ha | ->%list_elem_of_singleton]%elem_of_app & Hform).
      * right. by exists a.
      * by left.
Qed.

End AddV2OptionFacts.

Section IndexAllocationFacts.
Import Regex IndexCjs.




End IndexAllocationFacts.

Section AddAllocationFacts.
Import Regex Add.



End AddAllocationFacts.
